(** * voice-assistant-mvp: session orchestrator, transcription adapter and
      connection registry

    A shallow embedding of the server side of the voice assistant:

    - [Registry]  : the per-IP admission gate of [src/server/index.ts];
    - [Deepgram]  : the [DeepgramStream] adapter (accumulated transcript,
                    [finish], fallback timer);
    - [Handler]   : the per-connection orchestrator of
                    [src/server/ws/session-handler.ts] together with the
                    two request/response services it awaits;
    - [Recorder]  : the capture callback of the browser
                    ([src/app/hooks/useAudioRecorder.ts]);
    - [Client]    : the message reducer of the page
                    ([src/app/hooks/useWebSocket.ts]).

    The event loop is modelled by run-to-completion steps: one step is one
    callback (a socket event, a timer firing, a provider event, or the
    continuation of an [await]).  Text sent to the client is recorded in an
    output trace, in the order of the [ws.send] calls. *)

From Stdlib Require Import ZArith Ascii.
From Stdlib Require String.
From stdpp Require Import gmap strings list fin_maps.

Local Open Scope Z_scope.

(* ===================================================================== *)
(** * JavaScript string primitives used by the server                    *)
(* ===================================================================== *)

Module JS.

(** A character is one code unit below 256.  [String.prototype.trim] strips
    WhiteSpace and LineTerminator code points; in this range these are TAB,
    LF, VT, FF, CR, SP and NBSP. *)
Definition isWhiteSpace (c : ascii) : bool :=
  let n := nat_of_ascii c in
  ((9 <=? n)%nat && (n <=? 13)%nat) || (n =? 32)%nat || (n =? 160)%nat.

Fixpoint trimStart (s : string) : string :=
  match s with
  | EmptyString => EmptyString
  | String c s' => if isWhiteSpace c then trimStart s' else s
  end.

Fixpoint trimEnd (s : string) : string :=
  match s with
  | EmptyString => EmptyString
  | String c s' =>
      match trimEnd s' with
      | EmptyString => if isWhiteSpace c then EmptyString else String c EmptyString
      | t => String c t
      end
  end.

Definition trim (s : string) : string := trimEnd (trimStart s).

(** Truthiness of a string: the empty string is the only falsy one. *)
Definition truthy (s : string) : bool :=
  match s with EmptyString => false | _ => true end.

(** [s.includes(sub)] *)
Fixpoint includes (s sub : string) : bool :=
  String.prefix sub s
  || match s with
     | EmptyString => false
     | String _ s' => includes s' sub
     end.

(** [s.slice(0, n)] *)
Definition slice0 (n : nat) (s : string) : string := String.substring 0 n s.

(** Every character of the string is white space. *)
Fixpoint blank (s : string) : bool :=
  match s with
  | EmptyString => true
  | String c s' => isWhiteSpace c && blank s'
  end.

(** [Array.prototype.join(" ")] *)
Fixpoint join_space (l : list string) : string :=
  match l with
  | [] => ""
  | [x] => x
  | x :: rest => x +:+ " " +:+ join_space rest
  end.

End JS.

(* ===================================================================== *)
(** * The connection registry ([src/server/index.ts])                    *)
(* ===================================================================== *)

Module Registry.

Definition MAX_CONNECTIONS_PER_IP : Z := 3.

(** [ipConnections.get(clientIp) || d]: an absent key and a stored [0] are
    both falsy. *)
Definition get_or (m : gmap string Z) (clientIp : string) (d : Z) : Z :=
  match m !! clientIp with
  | Some v => if v =? 0 then d else v
  | None => d
  end.

(** One accepted TCP/WebSocket connection as the server sees it. *)
Record Socket := mkSocket {
  clientIp : string;
  (** the connection passed the gate: the ['close'] listener of lines 57-64
      is registered and [handleConnection] ran *)
  admitted : bool;
  (** [ws.close(code, reason)] issued by the gate *)
  closeFrame : option (Z * string);
  (** the socket has emitted ['close'] *)
  closed : bool
}.

Record Server := mkServer {
  ipConnections : gmap string Z;
  sockets : list Socket
}.

Definition init : Server := mkServer ∅ [].

(** [wss.on('connection', ...)], lines 44-67, for a request whose client
    identity is [ip]. *)
Definition on_connection (ip : string) (s : Server) : Server :=
  let currentConnections := get_or (ipConnections s) ip 0 in
  if MAX_CONNECTIONS_PER_IP <=? currentConnections then
    mkServer (ipConnections s)
      (sockets s ++
         [mkSocket ip false (Some (1008, "Too many connections from this IP")) false])
  else
    mkServer (<[ip := currentConnections + 1]> (ipConnections s))
      (sockets s ++ [mkSocket ip true None false]).

(** The ['close'] listener of lines 57-64. *)
Definition close_listener (ip : string) (m : gmap string Z) : gmap string Z :=
  let count := get_or m ip 1 in
  if count <=? 1 then delete ip m else <[ip := count - 1]> m.

Definition mark_closed (k : Socket) : Socket :=
  mkSocket (clientIp k) (admitted k) (closeFrame k) true.

(** Socket [i] emits ['close'].  A socket emits it once; the listener exists
    only on admitted sockets. *)
Definition on_close (i : nat) (s : Server) : Server :=
  match sockets s !! i with
  | Some k =>
      if closed k then s
      else
        mkServer
          (if admitted k then close_listener (clientIp k) (ipConnections s)
           else ipConnections s)
          (<[i := mark_closed k]> (sockets s))
  | None => s
  end.

(** Socket [i] emits ['error'].  [index.ts] registers no listener for it and
    the listener of the session handler (lines 72-76 there) only tears the
    session down: [ipConnections] is not touched on this path. *)
Definition on_error (i : nat) (s : Server) : Server := s.

Inductive Event :=
| Connection (ip : string)
| SocketError (i : nat)
| SocketClose (i : nat).

Definition step (e : Event) (s : Server) : Server :=
  match e with
  | Connection ip => on_connection ip s
  | SocketError i => on_error i s
  | SocketClose i => on_close i s
  end.

Fixpoint run (evs : list Event) (s : Server) : Server :=
  match evs with
  | [] => s
  | e :: evs' => run evs' (step e s)
  end.

(** Is this socket an open session of [ip]? *)
Definition holds (ip : string) (k : Socket) : bool :=
  admitted k && negb (closed k) && bool_decide (clientIp k = ip).

(** Number of open sessions of [ip]. *)
Fixpoint open_count (ip : string) (l : list Socket) : Z :=
  match l with
  | [] => 0
  | k :: l' => (if holds ip k then 1 else 0) + open_count ip l'
  end.

(** The count the registry stores for [ip] ([0] when it has no entry). *)
Definition count (s : Server) (ip : string) : Z :=
  match ipConnections s !! ip with Some v => v | None => 0 end.

(** The registry stores exactly the number of open sessions of every client
    identity, and no entry for an identity that has none. *)
Definition consistent (s : Server) : Prop :=
  ∀ ip,
    ipConnections s !! ip =
      (if decide (open_count ip (sockets s) = 0) then None
       else Some (open_count ip (sockets s)))
    ∧ open_count ip (sockets s) ≤ MAX_CONNECTIONS_PER_IP.

(** The socket the gate refuses. *)
Definition refused (ip : string) : Socket :=
  mkSocket ip false (Some (1008, "Too many connections from this IP")) false.

(** The socket the gate lets in. *)
Definition accepted (ip : string) : Socket := mkSocket ip true None false.

(** ** The client identity of a request *)

(** [h.split(',')[0]]: the text before the first comma. *)
Fixpoint before_comma (h : string) : string :=
  match h with
  | EmptyString => EmptyString
  | String c h' =>
      if Ascii.eqb c ","%char then EmptyString else String c (before_comma h')
  end.

(** Lines 45-47: [forwarded] is the [x-forwarded-for] header of the request
    and [remoteAddress] is [req.socket.remoteAddress]; either may be
    missing.
[[
    (req.headers['x-forwarded-for'] as string)?.split(',')[0]?.trim()
      || req.socket.remoteAddress
      || 'unknown'
]] *)
Definition client_identity (forwarded remoteAddress : option string) : string :=
  let first :=
    match forwarded with
    | Some h => JS.trim (before_comma h)
    | None => ""
    end in
  if JS.truthy first then first
  else
    match remoteAddress with
    | Some a => if JS.truthy a then a else "unknown"
    | None => "unknown"
    end.

(** The character occurs in the string. *)
Fixpoint occurs (c : ascii) (s : string) : bool :=
  match s with
  | EmptyString => false
  | String c' s' => Ascii.eqb c c' || occurs c s'
  end.

End Registry.

(* ===================================================================== *)
(** * The transcription stream adapter ([DeepgramStream])                *)
(* ===================================================================== *)

Module Deepgram.

(** What the [Transcript] listener reads from its payload:
    [data.channel?.alternatives?.[0]?.transcript] and [data.is_final], either
    of which may be missing. *)
Record TranscriptData := mkData {
  alt_transcript : option string;
  is_final : option bool
}.

(** The private fields of [DeepgramStream].  [connection] tells whether
    [this.connection] is non-null; [resolveFinish] holds the number of the
    promise whose [resolve] function is stored in the field. *)
Record DeepgramStream := mkStream {
  connection : bool;
  fullTranscript : string;
  resolveFinish : option nat;
  isOpen : bool
}.

(** The stream and what it acts upon. *)
Record World := mkWorld {
  stream : DeepgramStream;
  (** the promises returned by [finish()], in call order; [Some text] once
      resolved *)
  promises : list (option string);
  (** milliseconds *)
  now : Z;
  (** due times of the fallback timers that have not fired yet *)
  timers : list Z;
  (** calls of the [onPartial] callback *)
  partials : list (string * bool);
  (** chunks passed to [connection.send] *)
  forwarded : list (list Byte.byte);
  (** calls of [connection.requestClose] *)
  closeRequests : nat
}.

Definition FALLBACK_MS : Z := 2000.

Definition with_stream (f : DeepgramStream → DeepgramStream) (w : World) : World :=
  mkWorld (f (stream w)) (promises w) (now w) (timers w) (partials w)
    (forwarded w) (closeRequests w).

Definition with_promises (f : list (option string) → list (option string))
    (w : World) : World :=
  mkWorld (stream w) (f (promises w)) (now w) (timers w) (partials w)
    (forwarded w) (closeRequests w).

Definition set_fullTranscript (t : string) (s : DeepgramStream) : DeepgramStream :=
  mkStream (connection s) t (resolveFinish s) (isOpen s).

Definition set_resolveFinish (r : option nat) (s : DeepgramStream) : DeepgramStream :=
  mkStream (connection s) (fullTranscript s) r (isOpen s).

Definition set_isOpen (b : bool) (s : DeepgramStream) : DeepgramStream :=
  mkStream (connection s) (fullTranscript s) (resolveFinish s) b.

Definition set_connection (b : bool) (s : DeepgramStream) : DeepgramStream :=
  mkStream b (fullTranscript s) (resolveFinish s) (isOpen s).

(** Calling the [resolve] function of promise [p]: a promise that is already
    resolved keeps its value. *)
Definition resolve (p : nat) (text : string) (ps : list (option string))
    : list (option string) :=
  match ps !! p with
  | Some None => <[p := Some text]> ps
  | _ => ps
  end.

(** The body shared by the [UtteranceEnd] listener, the [Close] listener and
    the fallback timer:
[[
    if (this.resolveFinish) {
      this.resolveFinish(this.fullTranscript);
      this.resolveFinish = null;
    }
]] *)
Definition settle (w : World) : World :=
  match resolveFinish (stream w) with
  | Some p =>
      with_stream (set_resolveFinish None)
        (with_promises (resolve p (fullTranscript (stream w))) w)
  | None => w
  end.

(** A stream right after its constructor ran at time [t]. *)
Definition create (t : Z) : World :=
  mkWorld (mkStream true "" None false) [] t [] [] [] 0.

Definition on_open (w : World) : World := with_stream (set_isOpen true) w.

(** The [Transcript] listener, lines 51-63. *)
Definition on_transcript (data : TranscriptData) (w : World) : World :=
  let transcript := default "" (alt_transcript data) in
  if JS.truthy transcript then
    let isFinal := default false (is_final data) in
    let full := fullTranscript (stream w) in
    let full' :=
      if isFinal
      then full +:+ ((if JS.truthy full then " " else "") +:+ transcript)
      else full in
    let shown := if isFinal then full' else full' +:+ " " +:+ transcript in
    mkWorld (set_fullTranscript full' (stream w)) (promises w) (now w)
      (timers w) (partials w ++ [(shown, isFinal)]) (forwarded w)
      (closeRequests w)
  else w.

Definition on_utterance_end (w : World) : World := settle w.

(** The [Error] listener only logs. *)
Definition on_error (message : string) (w : World) : World := w.

Definition on_close (w : World) : World :=
  settle (with_stream (set_isOpen false) w).

(** [send(audioChunk)] *)
Definition send (audioChunk : list Byte.byte) (w : World) : World :=
  if connection (stream w) && isOpen (stream w) then
    mkWorld (stream w) (promises w) (now w) (timers w) (partials w)
      (forwarded w ++ [audioChunk]) (closeRequests w)
  else w.

(** [finish()]: the executor of the new promise runs at once.  The result is
    the world after the call and the number of the promise returned. *)
Definition finish (w : World) : World * nat :=
  let p := length (promises w) in
  if JS.truthy (fullTranscript (stream w)) then
    (with_promises (λ ps, ps ++ [Some (fullTranscript (stream w))]) w, p)
  else
    (mkWorld (set_resolveFinish (Some p) (stream w)) (promises w ++ [None])
       (now w) (timers w ++ [now w + FALLBACK_MS]) (partials w) (forwarded w)
       (closeRequests w), p).

(** [close()] *)
Definition close (w : World) : World :=
  let w1 :=
    if connection (stream w) then
      mkWorld (set_connection false (stream w)) (promises w) (now w)
        (timers w) (partials w) (forwarded w) (S (closeRequests w))
    else w in
  with_stream (set_isOpen false) w1.

(** [d] milliseconds pass: the fallback timers that fall due run their
    callback, oldest first. *)
Definition elapse (d : Z) (w : World) : World :=
  let t := now w + d in
  let due := filter (λ dl, dl ≤ t) (timers w) in
  let w' := foldl (λ acc _, settle acc) w due in
  mkWorld (stream w') (promises w') t (filter (λ dl, t < dl) (timers w))
    (partials w') (forwarded w') (closeRequests w').

Inductive Event :=
| Open
| Transcript (data : TranscriptData)
| UtteranceEnd
| Error (message : string)
| Close
| CallSend (audioChunk : list Byte.byte)
| CallFinish
| CallClose
| Elapse (d : Z).

Definition step (e : Event) (w : World) : World :=
  match e with
  | Open => on_open w
  | Transcript data => on_transcript data w
  | UtteranceEnd => on_utterance_end w
  | Error m => on_error m w
  | Close => on_close w
  | CallSend c => send c w
  | CallFinish => fst (finish w)
  | CallClose => close w
  | Elapse d => if 0 <=? d then elapse d w else w
  end.

Fixpoint run (evs : list Event) (w : World) : World :=
  match evs with
  | [] => w
  | e :: evs' => run evs' (step e w)
  end.

(** The value promise [p] has been resolved with, if any. *)
Definition result (w : World) (p : nat) : option string :=
  mjoin (promises w !! p).

(** The texts of the final segments among the events, oldest first: a
    [Transcript] event carries a segment when its text is non-empty. *)
Fixpoint final_segments (evs : list Event) : list string :=
  match evs with
  | [] => []
  | Transcript (mkData (Some t) (Some true)) :: evs' =>
      if JS.truthy t then t :: final_segments evs' else final_segments evs'
  | _ :: evs' => final_segments evs'
  end.

(** Following the specification's words: every segment the provider marks
    as final, joined by single spaces in arrival order. *)
Fixpoint marked_final (evs : list Event) : list string :=
  match evs with
  | [] => []
  | Transcript (mkData t (Some true)) :: evs' =>
      default "" t :: marked_final evs'
  | _ :: evs' => marked_final evs'
  end.

Definition spec_accumulated (evs : list Event) : string :=
  JS.join_space (marked_final evs).

(** Milliseconds that pass during the events. *)
Fixpoint elapsed (evs : list Event) : Z :=
  match evs with
  | [] => 0
  | Elapse d :: evs' => (if 0 <=? d then d else 0) + elapsed evs'
  | _ :: evs' => elapsed evs'
  end.

Definition is_finish (e : Event) : bool :=
  match e with CallFinish => true | _ => false end.

(** The accumulated transcript is the single-space join of the list [l] of
    non-empty segments. *)
Definition accumulates (w : World) (l : list string) : Prop :=
  fullTranscript (stream w) = JS.join_space l
  ∧ Forall (λ t, JS.truthy t = true) l.

(** Promise [p] is pending, its resolver is the one [resolveFinish] holds,
    and the fallback timer due at [due] has not fired yet. *)
Definition waiting (w : World) (p : nat) (due : Z) : Prop :=
  resolveFinish (stream w) = Some p
  ∧ promises w !! p = Some None
  ∧ due ∈ timers w
  ∧ now w < due.

(** Promise [p] is pending and nothing holds its resolver any more. *)
Definition orphaned (w : World) (p : nat) : Prop :=
  promises w !! p = Some None ∧ resolveFinish (stream w) ≠ Some p.

Definition final (t : string) : Event := Transcript (mkData (Some t) (Some true)).
Definition partial (t : string) : Event := Transcript (mkData (Some t) (Some false)).


Definition is_close_call (e : Event) : bool :=
  match e with CallClose => true | _ => false end.

(** Does the event carry a segment with text? *)
Definition has_text (e : Event) : bool :=
  match e with
  | Transcript data => JS.truthy (default "" (alt_transcript data))
  | _ => false
  end.

(** Promise [p] is resolved with text that has been accumulated. *)
Definition resolved_with_accumulated (w : World) (p : nat) : Prop :=
  ∃ v suffix, result w p = Some v ∧ fullTranscript (stream w) = v +:+ suffix.

End Deepgram.

(* ===================================================================== *)
(** * The session orchestrator ([src/server/ws/session-handler.ts])      *)
(* ===================================================================== *)

Module Handler.

Inductive AppStatus :=
| idle | listening | processing_stt | processing_llm | processing_tts
| ready_to_play.

Inductive ErrorCode :=
| STT_ERROR | LLM_ERROR | TTS_ERROR | RATE_LIMIT | MAX_DURATION
| INVALID_INPUT | CONNECTION_ERROR.

Record LLMResponse := mkResponse {
  summary : string;
  bullets : list string;
  next_action : string
}.

Inductive ServerMessage :=
| partial_transcript (text : string) (isFinal : bool)
| final_transcript (text : string)
| llm_response (data : LLMResponse)
| tts_audio (audioBase64 mimeType : string)
| error (message : string) (code : ErrorCode)
| status (st : AppStatus).

(** A parsed client message; [other_type] is a payload whose [type] matches
    no case of the [switch]. *)
Inductive ClientMessage :=
| audio_chunk (data : string)
| stop_recording
| cancel
| other_type.

(** A thrown value: an [Error] with its message, or anything else. *)
Inductive Thrown :=
| ErrorObj (message : string)
| NonError.

(** How an awaited promise settles. *)
Inductive Outcome (A : Type) :=
| Resolved (a : A)
| Rejected (e : Thrown).
Arguments Resolved {A} a.
Arguments Rejected {A} e.

Inductive TimerKind := VadTimer | MaxDurationTimer.
Inductive TimerState := Pending | Fired | Cleared.

(** Calls made on an [STTStream]; [SttSend data] stands for [send] of the
    buffer decoded from the base64 text [data]. *)
Inductive SttCall := SttSend (data : string) | SttFinish | SttClose.

(** Calls of the two downstream stages. *)
Inductive StageCall :=
| GenerateLLMResponse (userInput : string)
| GenerateTTS (text : string).

(** An activation of [finishRecording] suspended at one of its three
    [await]s, with the locals it still needs, or one that has returned. *)
Inductive Task :=
| AwaitStt (sttStream : nat)
| AwaitLlm (finalText : string)
| AwaitTts (ttsText : string)
| Returned.

Record Session := mkSession {
  sttStream : option nat;
  startTime : Z;
  lastActivityTime : Z;
  isCancelled : bool;
  vadTimeout : option nat;
  maxDurationTimeout : option nat
}.

Record World := mkWorld {
  session : Session;
  (** [ws.readyState === ws.OPEN] *)
  ws_open : bool;
  (** messages handed to [ws.send], oldest first *)
  sent : list ServerMessage;
  (** every timer created by [setTimeout]; a handle is an index *)
  timers : list (TimerKind * TimerState);
  (** number of streams created by [sttProvider.createStream] *)
  streams : nat;
  stt_calls : list (nat * SttCall);
  stage_calls : list StageCall;
  (** activations of [finishRecording], by creation order *)
  tasks : list Task;
  (** the session is in the [sessions] map *)
  registered : bool;
  (** [Date.now()] *)
  clock : Z
}.

(** ** Field updates *)

Definition with_session (f : Session → Session) (w : World) : World :=
  mkWorld (f (session w)) (ws_open w) (sent w) (timers w) (streams w)
    (stt_calls w) (stage_calls w) (tasks w) (registered w) (clock w).

Definition set_sttStream (v : option nat) : World → World :=
  with_session (λ s, mkSession v (startTime s) (lastActivityTime s)
                       (isCancelled s) (vadTimeout s) (maxDurationTimeout s)).

Definition set_startTime (v : Z) : World → World :=
  with_session (λ s, mkSession (sttStream s) v (lastActivityTime s)
                       (isCancelled s) (vadTimeout s) (maxDurationTimeout s)).

Definition set_lastActivityTime (v : Z) : World → World :=
  with_session (λ s, mkSession (sttStream s) (startTime s) v
                       (isCancelled s) (vadTimeout s) (maxDurationTimeout s)).

Definition set_isCancelled (v : bool) : World → World :=
  with_session (λ s, mkSession (sttStream s) (startTime s) (lastActivityTime s)
                       v (vadTimeout s) (maxDurationTimeout s)).

Definition set_vadTimeout (v : option nat) : World → World :=
  with_session (λ s, mkSession (sttStream s) (startTime s) (lastActivityTime s)
                       (isCancelled s) v (maxDurationTimeout s)).

Definition set_maxDurationTimeout (v : option nat) : World → World :=
  with_session (λ s, mkSession (sttStream s) (startTime s) (lastActivityTime s)
                       (isCancelled s) (vadTimeout s) v).

Definition with_timers (f : list (TimerKind * TimerState) → list (TimerKind * TimerState))
    (w : World) : World :=
  mkWorld (session w) (ws_open w) (sent w) (f (timers w)) (streams w)
    (stt_calls w) (stage_calls w) (tasks w) (registered w) (clock w).

Definition with_tasks (f : list Task → list Task) (w : World) : World :=
  mkWorld (session w) (ws_open w) (sent w) (timers w) (streams w)
    (stt_calls w) (stage_calls w) (f (tasks w)) (registered w) (clock w).

Definition stt_call (s : nat) (c : SttCall) (w : World) : World :=
  mkWorld (session w) (ws_open w) (sent w) (timers w) (streams w)
    (stt_calls w ++ [(s, c)]) (stage_calls w) (tasks w) (registered w) (clock w).

Definition stage_call (c : StageCall) (w : World) : World :=
  mkWorld (session w) (ws_open w) (sent w) (timers w) (streams w)
    (stt_calls w) (stage_calls w ++ [c]) (tasks w) (registered w) (clock w).

Definition set_ws_open (b : bool) (w : World) : World :=
  mkWorld (session w) b (sent w) (timers w) (streams w)
    (stt_calls w) (stage_calls w) (tasks w) (registered w) (clock w).

Definition set_registered (b : bool) (w : World) : World :=
  mkWorld (session w) (ws_open w) (sent w) (timers w) (streams w)
    (stt_calls w) (stage_calls w) (tasks w) b (clock w).

Definition set_clock (t : Z) (w : World) : World :=
  mkWorld (session w) (ws_open w) (sent w) (timers w) (streams w)
    (stt_calls w) (stage_calls w) (tasks w) (registered w) t.

Definition new_stream (w : World) : World :=
  mkWorld (session w) (ws_open w) (sent w) (timers w) (S (streams w))
    (stt_calls w) (stage_calls w) (tasks w) (registered w) (clock w).

(** ** Sending *)

(** What reaches the socket of the messages handed to [send]. *)
Definition delivered (w : World) (msgs : list ServerMessage) : list ServerMessage :=
  if ws_open w then msgs else [].

Definition send (message : ServerMessage) (w : World) : World :=
  if ws_open w then
    mkWorld (session w) (ws_open w) (sent w ++ [message]) (timers w) (streams w)
      (stt_calls w) (stage_calls w) (tasks w) (registered w) (clock w)
  else w.

Definition sendError (message : string) (code : ErrorCode) : World → World :=
  send (error message code).

Definition sendStatus (st : AppStatus) : World → World :=
  send (status st).

(** ** Timers *)

(** [clearTimeout(h)]: no effect on a timer that has fired or was cleared. *)
Definition clear_at (h : nat) (ts : list (TimerKind * TimerState))
    : list (TimerKind * TimerState) :=
  match ts !! h with
  | Some (k, Pending) => <[h := (k, Cleared)]> ts
  | _ => ts
  end.

Definition clearTimeout (h : nat) : World → World := with_timers (clear_at h).

(** [setTimeout(callback, ...)], with the callback named by its kind; the
    handle returned is the index of the new timer. *)
Definition setTimeout (k : TimerKind) (w : World) : World * nat :=
  (with_timers (λ ts, ts ++ [(k, Pending)]) w, length (timers w)).

(** Lines 148-156 of [finishRecording] and 216-224 of [cleanupSession]. *)
Definition clear_timers (w : World) : World :=
  let w :=
    match vadTimeout (session w) with
    | Some h => set_vadTimeout None (clearTimeout h w)
    | None => w
    end in
  match maxDurationTimeout (session w) with
  | Some h => set_maxDurationTimeout None (clearTimeout h w)
  | None => w
  end.

(** ** The awaited services *)

Definition MAX_INPUT_LENGTH : nat := 2000.
Definition MAX_TTS_LENGTH : nat := 4000.

(** What [generateLLMResponse] sends as the user message. *)
Definition llm_request (userInput : string) : string :=
  JS.slice0 MAX_INPUT_LENGTH userInput.

(** [generateLLMResponse(userInput)], given how the provider call settles;
    [Resolved None] is a completion without a parsed message. *)
Definition generateLLMResponse (userInput : string)
    (reply : Outcome (option LLMResponse)) : Outcome LLMResponse :=
  if negb (JS.truthy (JS.trim userInput)) then
    Rejected (ErrorObj "Empty input provided")
  else
    match reply with
    | Resolved (Some parsed) => Resolved parsed
    | Resolved None => Rejected (ErrorObj "Failed to parse LLM response")
    | Rejected e => Rejected e
    end.

(** What [generateTTS] sends as the input of the speech request. *)
Definition tts_request (text : string) : string :=
  JS.slice0 MAX_TTS_LENGTH text.

(** [generateTTS(text)], given how the provider call settles; the reply is
    the audio already encoded in base64. *)
Definition generateTTS (text : string) (reply : Outcome string)
    : Outcome (string * string) :=
  if negb (JS.truthy (JS.trim text)) then
    Rejected (ErrorObj "Empty text provided for TTS")
  else
    match reply with
    | Resolved base64Audio => Resolved (base64Audio, "audio/mpeg")
    | Rejected e => Rejected e
    end.

Definition formatForTTS (response : LLMResponse) : string := summary response.

(** ** [finishRecording] *)

(** The code and message chosen by the [catch] block, lines 190-204. *)
Definition classify (e : Thrown) : ErrorCode * string :=
  match e with
  | ErrorObj message =>
      if JS.includes message "STT" || JS.includes message "Deepgram" then
        (STT_ERROR, "Speech recognition failed")
      else if JS.includes message "LLM" || JS.includes message "OpenAI" then
        (LLM_ERROR, "AI response generation failed")
      else if JS.includes message "TTS" then
        (TTS_ERROR, "Text-to-speech failed")
      else (CONNECTION_ERROR, "An error occurred while processing")
  | NonError => (CONNECTION_ERROR, "An error occurred while processing")
  end.

(** The [catch] block, lines 187-208. *)
Definition catch_block (e : Thrown) (w : World) : World :=
  let w := sendError (snd (classify e)) (fst (classify e)) w in
  sendStatus idle w.

Definition set_task (k : nat) (t : Task) : World → World :=
  with_tasks (λ ts, <[k := t]> ts).

(** From the call up to the first [await], lines 145-165. *)
Definition finishRecording (w : World) : World :=
  let sttStream_ := sttStream (session w) in
  let w := clear_timers w in
  match sttStream_ with
  | None => sendStatus idle w
  | Some s =>
      let w := sendStatus processing_stt w in
      let w := stt_call s SttFinish w in
      with_tasks (λ ts, ts ++ [AwaitStt s]) w
  end.

(** Task [k] resumes after [await sttStream.finish()], lines 165-178. *)
Definition resume_stt (k s : nat) (r : Outcome string) (w : World) : World :=
  match r with
  | Resolved finalText =>
      let w := stt_call s SttClose w in
      let w := set_sttStream None w in
      if negb (JS.truthy (JS.trim finalText)) then
        let w := sendError "No speech detected" INVALID_INPUT w in
        let w := sendStatus idle w in
        set_task k Returned w
      else
        let w := send (final_transcript finalText) w in
        let w := sendStatus processing_llm w in
        let w := stage_call (GenerateLLMResponse finalText) w in
        set_task k (AwaitLlm finalText) w
  | Rejected e => set_task k Returned (catch_block e w)
  end.

(** Task [k] resumes after [await generateLLMResponse(finalText)], lines
    178-183. *)
Definition resume_llm (k : nat) (r : Outcome LLMResponse) (w : World) : World :=
  match r with
  | Resolved llmResponse =>
      let w := send (llm_response llmResponse) w in
      let w := sendStatus processing_tts w in
      let ttsText := formatForTTS llmResponse in
      let w := stage_call (GenerateTTS ttsText) w in
      set_task k (AwaitTts ttsText) w
  | Rejected e => set_task k Returned (catch_block e w)
  end.

(** Task [k] resumes after [await generateTTS(ttsText)], lines 183-186. *)
Definition resume_tts (k : nat) (r : Outcome (string * string)) (w : World) : World :=
  match r with
  | Resolved (audioBase64, mimeType) =>
      let w := send (tts_audio audioBase64 mimeType) w in
      let w := sendStatus ready_to_play w in
      set_task k Returned w
  | Rejected e => set_task k Returned (catch_block e w)
  end.

(** ** The other functions of the handler *)

Definition cleanupSession (w : World) : World :=
  let w := clear_timers w in
  let w :=
    match sttStream (session w) with
    | Some s => set_sttStream None (stt_call s SttClose w)
    | None => w
    end in
  set_isCancelled true w.

Definition resetVadTimeout (w : World) : World :=
  let w :=
    match vadTimeout (session w) with
    | Some h => clearTimeout h w
    | None => w
    end in
  let '(w, h) := setTimeout VadTimer w in
  set_vadTimeout (Some h) w.

(** The callback given to [createStream], lines 96-102. *)
Definition onPartial (text : string) (isFinal : bool) (w : World) : World :=
  if isCancelled (session w) then w
  else
    let w := send (partial_transcript text isFinal) w in
    resetVadTimeout w.

(** The callback of the duration-cap timer, lines 104-109. *)
Definition maxDuration_callback (w : World) : World :=
  if negb (isCancelled (session w)) then
    let w := sendError "Maximum recording duration reached" MAX_DURATION w in
    finishRecording w
  else w.

(** The callback of the silence timer, lines 137-142. *)
Definition vad_callback (w : World) : World :=
  if negb (isCancelled (session w)) && bool_decide (is_Some (sttStream (session w)))
  then finishRecording w
  else w.

Definition handleMessage (message : ClientMessage) (w : World) : World :=
  match message with
  | audio_chunk data =>
      if isCancelled (session w) then w
      else
        let w := set_lastActivityTime (clock w) w in
        let w :=
          match sttStream (session w) with
          | None =>
              let w := set_startTime (clock w) w in
              let w := sendStatus listening w in
              let w := set_sttStream (Some (streams w)) (new_stream w) in
              let '(w, h) := setTimeout MaxDurationTimer w in
              set_maxDurationTimeout (Some h) w
          | Some _ => w
          end in
        let w :=
          match sttStream (session w) with
          | Some s => stt_call s (SttSend data) w
          | None => w
          end in
        resetVadTimeout w
  | stop_recording => finishRecording w
  | cancel =>
      let w := set_isCancelled true w in
      let w := cleanupSession w in
      sendStatus idle w
  | other_type => w
  end.

(** [handleConnection] at time [t]: the session is created and registered
    and the first status is sent. *)
Definition connect (t : Z) : World :=
  sendStatus idle
    (mkWorld (mkSession None t t false None None) true [] [] 0 [] [] [] true t).

(** ** Events *)

Inductive Event :=
(** a ['message'] whose payload parses *)
| Message (m : ClientMessage)
(** a ['message'] whose payload makes [JSON.parse] throw *)
| BadMessage
(** the stream calls the callback it was created with *)
| OnPartial (text : string) (isFinal : bool)
(** timer [h] falls due *)
| TimerFires (h : nat)
(** the promise awaited by task [k] settles *)
| SttSettles (k : nat) (r : Outcome string)
| LlmReplies (k : nat) (r : Outcome (option LLMResponse))
| TtsReplies (k : nat) (r : Outcome string)
(** the socket stops being [OPEN] *)
| WsLeavesOpen
| WsClose
| WsError
(** [d] milliseconds pass *)
| Tick (d : Z).

Definition step (e : Event) (w : World) : World :=
  match e with
  | Message m => handleMessage m w
  | BadMessage => sendError "Failed to process message" INVALID_INPUT w
  | OnPartial text isFinal => onPartial text isFinal w
  | TimerFires h =>
      match timers w !! h with
      | Some (k, Pending) =>
          let w := with_timers (λ ts, <[h := (k, Fired)]> ts) w in
          match k with
          | VadTimer => vad_callback w
          | MaxDurationTimer => maxDuration_callback w
          end
      | _ => w
      end
  | SttSettles k r =>
      match tasks w !! k with
      | Some (AwaitStt s) => resume_stt k s r w
      | _ => w
      end
  | LlmReplies k r =>
      match tasks w !! k with
      | Some (AwaitLlm finalText) =>
          resume_llm k (generateLLMResponse finalText r) w
      | _ => w
      end
  | TtsReplies k r =>
      match tasks w !! k with
      | Some (AwaitTts ttsText) => resume_tts k (generateTTS ttsText r) w
      | _ => w
      end
  | WsLeavesOpen => set_ws_open false w
  | WsClose => set_registered false (cleanupSession (set_ws_open false w))
  | WsError => set_registered false (cleanupSession w)
  | Tick d => if 0 <=? d then set_clock (clock w + d) w else w
  end.

Fixpoint run (evs : list Event) (w : World) : World :=
  match evs with
  | [] => w
  | e :: evs' => run evs' (step e w)
  end.

(** ** Observations *)

(** No recording in progress: no stream and neither timer armed. *)
Definition Idle (s : Session) : Prop :=
  sttStream s = None ∧ vadTimeout s = None ∧ maxDurationTimeout s = None.

(** A stream is open and the session has not been cancelled. *)
Definition Listening (w : World) (s : nat) : Prop :=
  sttStream (session w) = Some s ∧ isCancelled (session w) = false.

(** The timer can still fire. *)
Definition is_pending (t : TimerKind * TimerState) : bool :=
  match t with (_, Pending) => true | _ => false end.





(** The output trace of [w'] continues that of [w]. *)
Definition extends (w w' : World) : Prop :=
  ∃ later, sent w' = sent w ++ later.

(** A recording followed by an explicit stop, the transcript "hello" and the
    start of response generation. *)
Definition generating : World :=
  run [Message (audio_chunk "AAAA"); Message stop_recording;
       SttSettles 0 (Resolved "hello")] (connect 0).

Definition sample_response : LLMResponse :=
  mkResponse "Hi there" ["greeting"; "short"] "Say more".

(** The stage calls one event adds to the log. *)
Definition new_stage_calls (e : Event) (w : World) : list StageCall :=
  match e with
  | SttSettles k (Resolved finalText) =>
      match tasks w !! k with
      | Some (AwaitStt _) =>
          if JS.truthy (JS.trim finalText) then [GenerateLLMResponse finalText]
          else []
      | _ => []
      end
  | LlmReplies k r =>
      match tasks w !! k with
      | Some (AwaitLlm finalText) =>
          match generateLLMResponse finalText r with
          | Resolved llmResponse => [GenerateTTS (summary llmResponse)]
          | Rejected _ => []
          end
      | _ => []
      end
  | _ => []
  end.

(** Everything but the output trace is the same in both worlds. *)
Definition same_state (w w' : World) : Prop :=
  session w' = session w ∧ ws_open w' = ws_open w ∧ timers w' = timers w
  ∧ streams w' = streams w ∧ stt_calls w' = stt_calls w
  ∧ stage_calls w' = stage_calls w ∧ tasks w' = tasks w
  ∧ registered w' = registered w ∧ clock w' = clock w.

(** Following the specification's words: a second cancel adds no status or
    error message to what the first one produced. *)
Definition spec_cancel_idempotent (w : World) : Prop :=
  sent (step (Message cancel) (step (Message cancel) w))
  = sent (step (Message cancel) w).

(** ** Observations over a whole connection *)

(** The session is cancelled and holds no stream: the state [cleanupSession]
    leaves. *)
Definition Cancelled (w : World) : Prop :=
  isCancelled (session w) = true ∧ sttStream (session w) = None.

(** Messages that belong to a recording: live text, the listening and
    transcribing statuses, the duration-cap notice. *)
Definition is_recording_output (m : ServerMessage) : bool :=
  match m with
  | partial_transcript _ _ => true
  | status listening => true
  | status processing_stt => true
  | error _ MAX_DURATION => true
  | _ => false
  end.

Definition is_stt_close (c : nat * SttCall) : bool :=
  match c with (_, SttClose) => true | _ => false end.

(** Every silence timer that can still fire is the one the session holds. *)
Definition vad_owned (ts : list (TimerKind * TimerState)) (v : option nat) : Prop :=
  ∀ h, ts !! h = Some (VadTimer, Pending) → v = Some h.

Definition is_final_transcript (m : ServerMessage) : bool :=
  match m with final_transcript _ => true | _ => false end.

Definition is_llm_response (m : ServerMessage) : bool :=
  match m with llm_response _ => true | _ => false end.

Definition is_tts_audio (m : ServerMessage) : bool :=
  match m with tts_audio _ _ => true | _ => false end.

Definition awaits_llm (t : Task) : bool :=
  match t with AwaitLlm _ => true | _ => false end.

Definition awaits_tts (t : Task) : bool :=
  match t with AwaitTts _ => true | _ => false end.

(** How many elements of the list pass the test. *)
Definition count_if {A} (f : A → bool) (l : list A) : nat :=
  length (List.filter f l).

(** The transcripts, responses and audio sent so far are nested: each
    response sent has its transcript sent before it, each audio its response;
    while the socket is open, the activations still awaiting a stage are
    accounted for as well. *)
Definition nested_outputs (w : World) : Prop :=
  (count_if is_tts_audio (sent w) ≤ count_if is_llm_response (sent w)
   ∧ count_if is_llm_response (sent w) ≤ count_if is_final_transcript (sent w))%nat
  ∧ (ws_open w = true →
     (count_if is_llm_response (sent w) + count_if awaits_llm (tasks w)
        ≤ count_if is_final_transcript (sent w)
      ∧ count_if is_tts_audio (sent w) + count_if awaits_tts (tasks w)
        ≤ count_if is_llm_response (sent w))%nat).

End Handler.

(* ===================================================================== *)
(** * The browser side: capture ([useAudioRecorder]) and the message
      reducer ([useWebSocket])                                           *)
(* ===================================================================== *)

Module Recorder.

Definition CHUNK_INTERVAL_MS : Z := 250.
Definition SILENCE_DURATION_MS : Z := 2500.

(** What the [onaudioprocess] callback hands to its two continuations.
    [Chunk samples] stands for [onChunk] called with the base64 text of the
    16-bit conversion of [samples]. *)
Inductive Output (A : Type) :=
| Chunk (samples : list A)
| SilenceDetected.
Arguments Chunk {A} samples.
Arguments SilenceDetected {A}.

(** The variables captured by the callback, lines 49-53, and what it has
    called so far.  A frame is the list of its samples. *)
Record Processor (A : Type) := mkProcessor {
  audioBuffer : list (list A);
  lastSendTime : Z;
  silenceStartTime : option Z;
  hasSpoken : bool;
  silenceTriggered : bool;
  outputs : list (Output A)
}.
Arguments mkProcessor {A}.
Arguments audioBuffer {A}.
Arguments lastSendTime {A}.
Arguments silenceStartTime {A}.
Arguments hasSpoken {A}.
Arguments silenceTriggered {A}.
Arguments outputs {A}.

(** One run of the callback.  [isSilent] is the outcome of the comparison
    [rms < SILENCE_THRESHOLD] on the frame; [tSilence] is what [Date.now()]
    returns in the silence branch and [tNow] what it returns for
    [const now]. *)
Record Callback (A : Type) := mkCallback {
  inputData : list A;
  isSilent : bool;
  tSilence : Z;
  tNow : Z
}.
Arguments mkCallback {A}.
Arguments inputData {A}.
Arguments isSilent {A}.
Arguments tSilence {A}.
Arguments tNow {A}.

(** The state [startRecording] sets up when [Date.now()] is [t]. *)
Definition start {A} (t : Z) : Processor A :=
  mkProcessor [] t None false false [].

(** Lines 55-90. *)
Definition onaudioprocess {A} (e : Callback A) (p : Processor A) : Processor A :=
  let audioBuffer1 := audioBuffer p ++ [inputData e] in
  let '(hasSpoken1, silenceStartTime1, silenceTriggered1, outputs1) :=
    if negb (isSilent e) then
      (true, None, silenceTriggered p, outputs p)
    else if hasSpoken p && negb (silenceTriggered p) then
      match silenceStartTime p with
      | None => (hasSpoken p, Some (tSilence e), silenceTriggered p, outputs p)
      | Some t0 =>
          if SILENCE_DURATION_MS <=? tSilence e - t0 then
            (hasSpoken p, silenceStartTime p, true, outputs p ++ [SilenceDetected])
          else (hasSpoken p, silenceStartTime p, silenceTriggered p, outputs p)
      end
    else (hasSpoken p, silenceStartTime p, silenceTriggered p, outputs p) in
  if CHUNK_INTERVAL_MS <=? tNow e - lastSendTime p then
    mkProcessor [] (tNow e) silenceStartTime1 hasSpoken1 silenceTriggered1
      (outputs1 ++ [Chunk (concat audioBuffer1)])
  else
    mkProcessor audioBuffer1 (lastSendTime p) silenceStartTime1 hasSpoken1
      silenceTriggered1 outputs1.

Fixpoint run {A} (es : list (Callback A)) (p : Processor A) : Processor A :=
  match es with
  | [] => p
  | e :: es' => run es' (onaudioprocess e p)
  end.

(** The samples handed to [onChunk] so far, in order. *)
Fixpoint sent_samples {A} (os : list (Output A)) : list A :=
  match os with
  | [] => []
  | Chunk samples :: os' => samples ++ sent_samples os'
  | SilenceDetected :: os' => sent_samples os'
  end.

(** The number of [onSilenceDetected] calls so far. *)
Fixpoint detections {A} (os : list (Output A)) : nat :=
  match os with
  | [] => 0
  | Chunk _ :: os' => detections os'
  | SilenceDetected :: os' => S (detections os')
  end.

(** The samples captured by the callbacks, in order. *)
Definition captured {A} (es : list (Callback A)) : list A :=
  concat (map inputData es).

(** The latch: the number of detections so far is told by
    [silenceTriggered]. *)
Definition latched {A} (p : Processor A) : Prop :=
  detections (outputs p) = (if silenceTriggered p then 1 else 0)%nat.

End Recorder.

Module Client.

(** The state held by [useWebSocket]. *)
Record State := mkState {
  status : Handler.AppStatus;
  transcript : string;
  llmResponse : option Handler.LLMResponse;
  audioData : option (string * string);
  error : option string
}.

(** [handleMessage], lines 72-97. *)
Definition handleMessage (message : Handler.ServerMessage) (c : State) : State :=
  match message with
  | Handler.status st =>
      mkState st (transcript c) (llmResponse c) (audioData c) (error c)
  | Handler.partial_transcript text _ =>
      mkState (status c) text (llmResponse c) (audioData c) (error c)
  | Handler.final_transcript text =>
      mkState (status c) text (llmResponse c) (audioData c) (error c)
  | Handler.llm_response data =>
      mkState (status c) (transcript c) (Some data) (audioData c) (error c)
  | Handler.tts_audio audioBase64 mimeType =>
      mkState (status c) (transcript c) (llmResponse c)
        (Some (audioBase64, mimeType)) (error c)
  | Handler.error message _ =>
      mkState (status c) (transcript c) (llmResponse c) (audioData c) (Some message)
  end.

(** The messages of the server handled in the order they arrive. *)
Definition receive (messages : list Handler.ServerMessage) (c : State) : State :=
  foldl (λ acc m, handleMessage m acc) c messages.

(** The condition of the effect of the page that starts playback:
    [audioData && status === 'ready_to_play']; the result is the arguments
    of [play]. *)
Definition autoplay (c : State) : option (string * string) :=
  match audioData c, status c with
  | Some a, Handler.ready_to_play => Some a
  | _, _ => None
  end.

End Client.

(* ===================================================================== *)
(** * Properties                                                         *)
(* ===================================================================== *)

(** ** String primitives *)

Section StringFacts.
Import JS.

Lemma trimStart_blank s : blank s = true → trimStart s = "".
Proof.
  induction s as [|c s IH]; simpl; [done|].
  intros [Hc Hs]%andb_prop. rewrite Hc. auto.
Qed.

Lemma trimEnd_nil_blank s : trimEnd s = "" → blank s = true.
Proof.
  induction s as [|c s IH]; simpl; [done|].
  destruct (trimEnd s) eqn:E; [|done].
  destruct (isWhiteSpace c); [auto|done].
Qed.

Lemma trimStart_not_blank s : blank s = false → blank (trimStart s) = false.
Proof.
  induction s as [|c s IH]; simpl; [done|].
  destruct (isWhiteSpace c) eqn:E; simpl; [auto|].
  by rewrite E.
Qed.

(** [trim] returns the empty string exactly on the strings made of white
    space only. *)
Lemma trim_empty_iff_blank s : trim s = "" ↔ blank s = true.
Proof.
  unfold trim. split.
  - intros H. destruct (blank s) eqn:E; [done|].
    apply trimStart_not_blank in E. apply trimEnd_nil_blank in H. congruence.
  - intros H. by rewrite trimStart_blank.
Qed.

Lemma truthy_false s : truthy s = false ↔ s = "".
Proof. by destruct s. Qed.

Lemma append_cons c s t : String c s +:+ t = String c (s +:+ t).
Proof. reflexivity. Qed.

Lemma append_empty_r s : s +:+ "" = s.
Proof. induction s as [|a s IH]; [done|by rewrite append_cons, IH]. Qed.

Lemma append_assoc' (a b c : string) : (a +:+ b) +:+ c = a +:+ (b +:+ c).
Proof. induction a as [|x a IH]; [done|by rewrite !append_cons, IH]. Qed.

End StringFacts.

(** ** The connection registry *)

Section RegistryFacts.
Import Registry.

Lemma open_count_app ip l l' :
  open_count ip (l ++ l') = open_count ip l + open_count ip l'.
Proof. induction l as [|k l IH]; simpl; [done|]. rewrite IH. lia. Qed.

Lemma open_count_nonneg ip l : 0 ≤ open_count ip l.
Proof. induction l as [|k l IH]; simpl; [done|]. destruct (holds ip k); lia. Qed.

Lemma holds_mark_closed ip k : holds ip (mark_closed k) = false.
Proof. unfold holds. simpl. by rewrite andb_false_r. Qed.

(** Closing socket [i] takes one session away from its identity, and none
    from any other. *)
Lemma open_count_close ip (l : list Socket) i k :
  l !! i = Some k →
  open_count ip (<[i := mark_closed k]> l) =
    open_count ip l - (if holds ip k then 1 else 0).
Proof.
  revert i. induction l as [|k' l IH]; intros [|i] H; simplify_eq/=.
  - rewrite holds_mark_closed. lia.
  - rewrite (IH _ H). lia.
Qed.

Lemma consistent_init : consistent init.
Proof. intros ip. simpl. split; [done|]. unfold MAX_CONNECTIONS_PER_IP. lia. Qed.

Lemma consistent_get_or s ip d :
  consistent s →
  get_or (ipConnections s) ip d =
    if decide (open_count ip (sockets s) = 0) then d
    else open_count ip (sockets s).
Proof.
  intros H. unfold get_or. destruct (H ip) as [-> _].
  case_decide as E; [done|]. by apply Z.eqb_neq in E as ->.
Qed.

Lemma consistent_count s ip :
  consistent s → count s ip = open_count ip (sockets s).
Proof.
  intros H. unfold count. destruct (H ip) as [-> _]. by case_decide.
Qed.

Lemma holds_accepted ip ip' :
  holds ip (accepted ip') = bool_decide (ip' = ip).
Proof. done. Qed.

Lemma consistent_connection ip s : consistent s → consistent (on_connection ip s).
Proof.
  intros H ip'. unfold on_connection.
  rewrite (consistent_get_or _ _ _ H).
  pose proof (open_count_nonneg ip (sockets s)) as Hge.
  destruct (H ip) as [_ Hle]. destruct (H ip') as [Hm' Hle'].
  unfold MAX_CONNECTIONS_PER_IP in *.
  destruct (3 <=? _) eqn:E; simpl.
  - rewrite open_count_app. simpl. fold (refused ip).
    change (holds ip' (refused ip)) with false.
    rewrite !Z.add_0_r. done.
  - rewrite open_count_app. simpl. fold (accepted ip). rewrite holds_accepted.
    apply Z.leb_gt in E.
    destruct (decide (ip = ip')) as [<-|Hne].
    + rewrite bool_decide_eq_true_2 by done. rewrite lookup_insert_eq.
      repeat case_decide; try lia; (split; [f_equal; lia|lia]).
    + rewrite bool_decide_eq_false_2 by done. rewrite lookup_insert_ne by done.
      rewrite !Z.add_0_r. done.
Qed.

Lemma consistent_close i s : consistent s → consistent (on_close i s).
Proof.
  intros H ip. unfold on_close.
  destruct (sockets s !! i) as [k|] eqn:Hk; [|apply H].
  destruct (closed k) eqn:Hc; [apply H|]. simpl.
  rewrite (open_count_close _ _ _ _ Hk).
  pose proof (open_count_nonneg ip (sockets s)) as Hge.
  destruct (H ip) as [Hm Hle].
  destruct (admitted k) eqn:Ha.
  - unfold close_listener. rewrite (consistent_get_or _ _ _ H).
    destruct (H (clientIp k)) as [Hmk Hlek].
    unfold holds. rewrite Ha, Hc. simpl.
    destruct (decide (clientIp k = ip)) as [<-|Hne].
    + rewrite bool_decide_eq_true_2 by done.
      assert (holds (clientIp k) k = true) as Hh.
      { unfold holds. rewrite Ha, Hc. simpl. by apply bool_decide_eq_true_2. }
      assert (1 ≤ open_count (clientIp k) (sockets s)) as Hpos.
      { apply list_elem_of_split_length in Hk as (l1 & l2 & -> & _).
        rewrite open_count_app. simpl. rewrite Hh.
        pose proof (open_count_nonneg (clientIp k) l1).
        pose proof (open_count_nonneg (clientIp k) l2).
        lia. }
      case_decide; [lia|].
      destruct (_ <=? 1) eqn:E.
      * apply Z.leb_le in E. rewrite lookup_delete_eq.
        case_decide; [split; [done|lia]|lia].
      * apply Z.leb_gt in E. rewrite lookup_insert_eq.
        case_decide; [lia|]. split; [done|lia].
    + rewrite bool_decide_eq_false_2 by done. rewrite Z.sub_0_r.
      destruct (_ <=? 1);
        [rewrite lookup_delete_ne by done|rewrite lookup_insert_ne by done];
        done.
  - unfold holds. rewrite Ha. simpl. rewrite Z.sub_0_r. done.
Qed.

Lemma consistent_step e s : consistent s → consistent (step e s).
Proof.
  destruct e; simpl; auto using consistent_connection, consistent_close.
Qed.

Lemma consistent_run evs s : consistent s → consistent (run evs s).
Proof.
  revert s. induction evs as [|e evs IH]; simpl; auto using consistent_step.
Qed.

End RegistryFacts.

Section RegistryClaims.
Import Registry.

Lemma on_close_closed i s k :
  sockets s !! i = Some k → closed k = true → on_close i s = s.
Proof. intros H Hc. unfold on_close. by rewrite H, Hc. Qed.

Lemma on_close_again i s : on_close i (on_close i s) = on_close i s.
Proof.
  destruct (sockets s !! i) as [k|] eqn:Hk.
  - destruct (closed k) eqn:Hc.
    + by rewrite !(on_close_closed i s k).
    + apply on_close_closed with (mark_closed k); [|done].
      unfold on_close. rewrite Hk, Hc. simpl.
      apply list_lookup_insert_eq. by eapply lookup_lt_Some.
  - unfold on_close. rewrite Hk. simpl. by rewrite Hk.
Qed.

Lemma holds_open ip k : holds ip k = true → closed k = false.
Proof. unfold holds. destruct (admitted k), (closed k); simpl; done. Qed.

Lemma count_after_close evs ip i k :
  let s := run evs init in
  sockets s !! i = Some k → holds ip k = true →
  count (on_close i s) ip = count s ip - 1.
Proof.
  intros s Hk Hh.
  assert (consistent s) as Hs by apply consistent_run, consistent_init.
  rewrite !consistent_count by auto using consistent_close.
  unfold on_close. rewrite Hk, (holds_open _ _ Hh). simpl.
  rewrite (open_count_close _ _ _ _ Hk), Hh. done.
Qed.

(** C4.  In every state the server can reach, the count stored for a client
    identity is the number of its open sessions (so each close takes off
    exactly one, whatever ['error'] events surround it), lies between 0 and
    the maximum, and is never stored as 0.  An identity holding the maximum
    is refused with close code 1008 and its own reason; once one of its
    sessions closes, the next connection is let in. *)
Theorem C4_registry_counts (evs : list Event) (ip : string) :
  let s := run evs init in
  count s ip = open_count ip (sockets s)
  ∧ 0 ≤ count s ip ≤ MAX_CONNECTIONS_PER_IP
  ∧ ipConnections s !! ip ≠ Some 0
  ∧ (∀ i k, sockets s !! i = Some k → holds ip k = true →
       count (on_close i s) ip = count s ip - 1
       ∧ count (on_close i (on_error i (on_close i s))) ip = count s ip - 1
       ∧ count (on_close i (on_error i s)) ip = count s ip - 1)
  ∧ (count s ip = MAX_CONNECTIONS_PER_IP →
       ipConnections (on_connection ip s) = ipConnections s
       ∧ last (sockets (on_connection ip s)) = Some (refused ip)
       ∧ ∀ i k, sockets s !! i = Some k → holds ip k = true →
           last (sockets (on_connection ip (on_close i s))) = Some (accepted ip)
           ∧ count (on_connection ip (on_close i s)) ip = MAX_CONNECTIONS_PER_IP).
Proof.
  intros s.
  assert (consistent s) as Hs by apply consistent_run, consistent_init.
  pose proof (consistent_count _ ip Hs) as Hc.
  pose proof (open_count_nonneg ip (sockets s)) as Hge.
  destruct (Hs ip) as [Hm Hle].
  split_and!.
  - done.
  - lia.
  - lia.
  - rewrite Hm. case_decide; congruence.
  - intros i k Hk Hh. unfold on_error. rewrite on_close_again.
    split_and!; by eapply count_after_close.
  - intros Hfull.
    assert (get_or (ipConnections s) ip 0 = MAX_CONNECTIONS_PER_IP) as Hg.
    { rewrite consistent_get_or by done. case_decide; lia. }
    unfold on_connection at 1 2. rewrite Hg. simpl.
    split_and!; [done|by rewrite last_snoc|].
    intros i k Hk Hh.
    pose proof (count_after_close evs ip i k Hk Hh) as Hdec. fold s in Hdec.
    assert (consistent (on_close i s)) as Hs' by by apply consistent_close.
    assert (get_or (ipConnections (on_close i s)) ip 0 = MAX_CONNECTIONS_PER_IP - 1)
      as Hg'.
    { pose proof (consistent_count _ ip Hs') as Hc'.
      rewrite consistent_get_or by done.
      unfold MAX_CONNECTIONS_PER_IP in *.
      destruct (decide (open_count ip (sockets (on_close i s)) = 0)); lia. }
    unfold on_connection. rewrite Hg'. simpl. split; [by rewrite last_snoc|].
    unfold count. simpl. rewrite lookup_insert_eq.
    unfold MAX_CONNECTIONS_PER_IP. lia.
Qed.

(** Three sessions from one address: the fourth is refused, and let in after
    one of the three has closed. *)
Lemma C4_registry_counts_witness :
  let ip := "203.0.113.7" in
  let s := run [Connection ip; Connection ip; Connection ip] init in
  count s ip = MAX_CONNECTIONS_PER_IP
  ∧ last (sockets (on_connection ip s)) = Some (refused ip)
  ∧ last (sockets (on_connection ip (on_close 1 s))) = Some (accepted ip).
Proof.
  intros ip s.
  pose proof (C4_registry_counts [Connection ip; Connection ip; Connection ip] ip)
    as (_ & _ & _ & _ & H).
  assert (count s ip = MAX_CONNECTIONS_PER_IP) as Hfull by (vm_compute; reflexivity).
  destruct (H Hfull) as (_ & Hrefused & Hnext).
  split_and!; [exact Hfull|exact Hrefused|].
  apply (Hnext 1%nat (accepted ip)); vm_compute; reflexivity.
Defined.

End RegistryClaims.

(** ** The transcription stream adapter *)

Section DeepgramFacts.
Import Deepgram.

Lemma join_space_snoc l t :
  l ≠ [] → JS.join_space (l ++ [t]) = JS.join_space l +:+ (" " +:+ t).
Proof.
  induction l as [|x [|y l] IH]; intros Hne; [done|done|].
  change (x +:+ " " +:+ JS.join_space ((y :: l) ++ [t]) =
          (x +:+ " " +:+ JS.join_space (y :: l)) +:+ " " +:+ t).
  rewrite IH by done. by rewrite !append_assoc'.
Qed.

Lemma truthy_append_l s t : JS.truthy s = true → JS.truthy (s +:+ t) = true.
Proof. by destruct s. Qed.

Lemma truthy_join_space l :
  Forall (λ t, JS.truthy t = true) l → l ≠ [] → JS.truthy (JS.join_space l) = true.
Proof.
  intros Hl Hne. destruct Hl as [|x [|y l] Hx Hl]; [done|done|].
  by apply truthy_append_l.
Qed.

Lemma settle_fullTranscript w :
  fullTranscript (stream (settle w)) = fullTranscript (stream w).
Proof. unfold settle. by destruct (resolveFinish (stream w)). Qed.

Lemma settle_all_fullTranscript (due : list Z) w :
  fullTranscript (stream (foldl (λ acc _, settle acc) w due)) =
  fullTranscript (stream w).
Proof.
  revert w. induction due as [|d due IH]; intros w; simpl; [done|].
  by rewrite IH, settle_fullTranscript.
Qed.

(** Only a final segment with text changes the accumulated transcript. *)
Lemma step_fullTranscript e w :
  fullTranscript (stream (step e w)) =
    match final_segments [e] with
    | [t] =>
        fullTranscript (stream w)
        +:+ ((if JS.truthy (fullTranscript (stream w)) then " " else "") +:+ t)
    | _ => fullTranscript (stream w)
    end.
Proof.
  destruct e as [ |[[t|] [[|]|]]| | | | | | |d]; simpl;
    unfold on_transcript, on_utterance_end, on_close, send, finish, close;
    simpl; rewrite ?settle_fullTranscript; try done.
  - by destruct (JS.truthy t).
  - by destruct (JS.truthy t).
  - by destruct (JS.truthy t).
  - by destruct (_ && _).
  - by destruct (JS.truthy _).
  - by destruct (connection _).
  - destruct (0 <=? d); [|done]. simpl. apply settle_all_fullTranscript.
Qed.

Lemma accumulates_step e w l :
  accumulates w l → accumulates (step e w) (l ++ final_segments [e]).
Proof.
  intros [Hfull Hl]. unfold accumulates. rewrite step_fullTranscript.
  assert (final_segments [e] = [] ∨
          ∃ t, final_segments [e] = [t] ∧ JS.truthy t = true) as [->|(t & -> & Ht)].
  { destruct e as [ |[[t|] [[|]|]]| | | | | | |d]; simpl; auto.
    destruct (JS.truthy t) eqn:E; eauto. }
  - by rewrite app_nil_r.
  - split; [|apply Forall_app; auto].
    destruct l as [|x l].
    + rewrite Hfull. done.
    + rewrite Hfull, truthy_join_space, join_space_snoc by done. done.
Qed.

Lemma final_segments_cons e evs :
  final_segments (e :: evs) = final_segments [e] ++ final_segments evs.
Proof.
  destruct e as [ |[[t|] [[|]|]]| | | | | | |d]; simpl; try done.
  by destruct (JS.truthy t).
Qed.

Lemma accumulates_run evs w l :
  accumulates w l → accumulates (run evs w) (l ++ final_segments evs).
Proof.
  revert w l. induction evs as [|e evs IH]; intros w l H.
  - simpl. by rewrite app_nil_r.
  - rewrite final_segments_cons, app_assoc. simpl.
    by apply IH, accumulates_step.
Qed.

End DeepgramFacts.

Section TranscriptClaims.
Import Deepgram.

Lemma transcript_step_extends e w :
  ∃ suffix, fullTranscript (stream (step e w)) = fullTranscript (stream w) +:+ suffix.
Proof.
  rewrite step_fullTranscript.
  destruct (final_segments [e]) as [|t [|? ?]]; eauto.
  exists "". by rewrite append_empty_r.
  exists "". by rewrite append_empty_r.
Qed.

Lemma transcript_run_extends evs w :
  ∃ suffix, fullTranscript (stream (run evs w)) = fullTranscript (stream w) +:+ suffix.
Proof.
  revert w. induction evs as [|e evs IH]; intros w; simpl.
  - exists "". by rewrite append_empty_r.
  - destruct (IH (step e w)) as [s2 ->]. destruct (transcript_step_extends e w) as [s1 ->].
    exists (s1 +:+ s2). by rewrite append_assoc'.
Qed.

(** Two finals give the single-space join. *)
Example hello_world :
  fullTranscript (stream (run [final "hello"; final "world"] (create 0)))
  = "hello world".
Proof. reflexivity. Qed.

(** C6, as the code has it.  The accumulated transcript of a stream is the
    single-space join, in arrival order, of the final segments that carry
    text: a [Transcript] event whose text is empty or missing is skipped by
    the listener and adds neither text nor a space.  A segment not marked
    final never changes it, and whatever happens later only appends: the
    text accumulated so far stays as a prefix. *)
Theorem C6_accumulated_transcript (t0 : Z) (evs : list Event) :
  fullTranscript (stream (run evs (create t0))) = JS.join_space (final_segments evs)
  ∧ (∀ w data, is_final data ≠ Some true →
       fullTranscript (stream (step (Transcript data) w)) = fullTranscript (stream w))
  ∧ (∀ w evs', ∃ suffix,
       fullTranscript (stream (run evs' w)) = fullTranscript (stream w) +:+ suffix).
Proof.
  split_and!.
  - destruct (accumulates_run evs (create t0) []) as [H _]; [by split|]. done.
  - intros w [[t|] [[|]|]] H; try done; simpl; unfold on_transcript; simpl;
      by destruct (JS.truthy t).
  - intros w evs'. apply transcript_run_extends.
Qed.

(** A partial segment after a final leaves the accumulated text as it was. *)
Lemma C6_accumulated_transcript_witness :
  let w := run [final "hello"] (create 0) in
  fullTranscript (stream (step (partial "wor") w)) = "hello".
Proof.
  intros w.
  destruct (C6_accumulated_transcript 0 []) as (_ & H & _).
  etrans; [apply (H w (mkData (Some "wor") (Some false))); discriminate|].
  reflexivity.
Defined.

(** C6 as stated fails when the provider marks a segment without text as
    final: joining every final segment by single spaces gives two spaces in
    a row, the code gives one. *)
Lemma C6_counterexample :
  let evs := [final "hello"; final ""; final "world"] in
  fullTranscript (stream (run evs (create 0))) = "hello world"
  ∧ spec_accumulated evs = "hello  world"
  ∧ fullTranscript (stream (run evs (create 0))) ≠ spec_accumulated evs.
Proof. split_and!; [reflexivity|reflexivity|discriminate]. Qed.

End TranscriptClaims.

Section PromiseFacts.
Import Deepgram.

Lemma resolve_other p q text (ps : list (option string)) :
  p ≠ q → resolve p text ps !! q = ps !! q.
Proof.
  intros Hne. unfold resolve. destruct (ps !! p) as [[?|]|]; try done.
  by apply list_lookup_insert_ne.
Qed.

Lemma resolve_pending p text (ps : list (option string)) :
  ps !! p = Some None → resolve p text ps !! p = Some (Some text).
Proof.
  intros H. unfold resolve. rewrite H.
  apply list_lookup_insert_eq. by eapply lookup_lt_Some.
Qed.

Lemma resolve_settled p q text v (ps : list (option string)) :
  ps !! q = Some (Some v) → resolve p text ps !! q = Some (Some v).
Proof.
  intros H. destruct (decide (p = q)) as [->|Hne].
  - unfold resolve. by rewrite H.
  - by rewrite resolve_other.
Qed.

Lemma promises_settle w :
  promises (settle w) =
    match resolveFinish (stream w) with
    | Some p => resolve p (fullTranscript (stream w)) (promises w)
    | None => promises w
    end.
Proof. unfold settle. by destruct (resolveFinish (stream w)). Qed.

Lemma resolveFinish_settle w : resolveFinish (stream (settle w)) = None.
Proof. unfold settle. by destruct (resolveFinish (stream w)) eqn:E. Qed.

Lemma result_settle_keep w q v : result w q = Some v → result (settle w) q = Some v.
Proof.
  unfold result. rewrite promises_settle. intros H.
  destruct (resolveFinish (stream w)); [|done].
  destruct (promises w !! q) as [[v'|]|] eqn:E; simplify_eq/=.
  by erewrite resolve_settled.
Qed.

Lemma result_settle_all_keep (due : list Z) w q v :
  result w q = Some v → result (foldl (λ acc _, settle acc) w due) q = Some v.
Proof.
  revert w. induction due as [|d due IH]; intros w H; simpl; [done|].
  by apply IH, result_settle_keep.
Qed.

(** A promise that has been resolved keeps its value, whatever happens. *)
Lemma result_step_keep e w q v : result w q = Some v → result (step e w) q = Some v.
Proof.
  intros H.
  destruct e as [ |data| | | |c| | |d]; simpl;
    unfold on_open, on_transcript, on_utterance_end, on_error, on_close, send,
      close; try done.
  - by destruct (JS.truthy _).
  - by apply result_settle_keep.
  - by apply result_settle_keep.
  - by destruct (_ && _).
  - unfold finish, result in *.
    destruct (promises w !! q) as [o|] eqn:E; [|done].
    destruct (JS.truthy _); simpl; by rewrite (lookup_app_l_Some _ _ _ _ E), H.
  - by destruct (connection _).
  - destruct (0 <=? d); [|done]. unfold elapse, result. simpl.
    by apply result_settle_all_keep.
Qed.

Lemma result_run_keep evs w q v : result w q = Some v → result (run evs w) q = Some v.
Proof.
  revert w. induction evs as [|e evs IH]; intros w H; simpl; [done|].
  by apply IH, result_step_keep.
Qed.

(** The listener body resolves the promise whose resolver it finds, with the
    transcript accumulated at that moment. *)
Lemma settle_resolves w p :
  resolveFinish (stream w) = Some p → promises w !! p = Some None →
  result (settle w) p = Some (fullTranscript (stream w)).
Proof.
  intros Hr Hp. unfold result. rewrite promises_settle, Hr.
  by rewrite resolve_pending.
Qed.

Lemma settle_all_resolves (due : list Z) w p :
  due ≠ [] → resolveFinish (stream w) = Some p → promises w !! p = Some None →
  result (foldl (λ acc _, settle acc) w due) p = Some (fullTranscript (stream w)).
Proof.
  destruct due as [|d due]; [done|]. intros _ Hr Hp. simpl.
  by apply result_settle_all_keep, settle_resolves.
Qed.

End PromiseFacts.

Section FinishClaims.
Import Deepgram.

Lemma timers_settle w : timers (settle w) = timers w.
Proof. unfold settle. by destruct (resolveFinish (stream w)). Qed.

Lemma now_settle w : now (settle w) = now w.
Proof. unfold settle. by destruct (resolveFinish (stream w)). Qed.

Lemma now_step e w : now (step e w) = now w + elapsed [e].
Proof.
  destruct e as [ |data| | | |c| | |d]; simpl;
    unfold on_open, on_transcript, on_utterance_end, on_error, on_close, send,
      finish, close; rewrite ?now_settle; simpl; try lia.
  - destruct (JS.truthy _); simpl; lia.
  - destruct (_ && _); simpl; lia.
  - destruct (JS.truthy _); simpl; lia.
  - destruct (connection _); simpl; lia.
  - destruct (0 <=? d); simpl; lia.
Qed.

Lemma now_run evs w : now (run evs w) = now w + elapsed evs.
Proof.
  revert w. induction evs as [|e evs IH]; intros w; simpl; [lia|].
  rewrite IH, now_step. destruct e; simpl; lia.
Qed.

Lemma orphaned_settle w p : orphaned w p → orphaned (settle w) p.
Proof.
  intros [Hp Hr]. split; [|by rewrite resolveFinish_settle].
  rewrite promises_settle. destruct (resolveFinish (stream w)) as [q|]; [|done].
  rewrite resolve_other; [done|congruence].
Qed.

Lemma orphaned_settle_all (due : list Z) w p :
  orphaned w p → orphaned (foldl (λ acc _, settle acc) w due) p.
Proof.
  revert w. induction due as [|d due IH]; intros w H; simpl; [done|].
  by apply IH, orphaned_settle.
Qed.

(** Once the resolver of a pending promise is lost, no event brings it back
    and none resolves the promise. *)
Lemma orphaned_step e w p : orphaned w p → orphaned (step e w) p.
Proof.
  intros H.
  destruct e as [ |data| | | |c| | |d]; simpl;
    unfold on_open, on_transcript, on_utterance_end, on_error, on_close, send,
      close; try done.
  - by destruct (JS.truthy _).
  - by apply orphaned_settle.
  - by apply (orphaned_settle (with_stream (set_isOpen false) w)).
  - by destruct (_ && _).
  - destruct H as [Hp Hr]. unfold finish, orphaned.
    destruct (JS.truthy _); simpl.
    + by rewrite (lookup_app_l_Some _ _ _ _ Hp).
    + rewrite (lookup_app_l_Some _ _ _ _ Hp). split; [done|].
      apply lookup_lt_Some in Hp. intros [= <-]. lia.
  - by destruct (connection _).
  - destruct (0 <=? d); [|done]. unfold elapse.
    destruct (orphaned_settle_all (filter (λ dl, dl ≤ now w + d) (timers w)) w p H).
    by split.
Qed.

Lemma orphaned_run evs w p : orphaned w p → orphaned (run evs w) p.
Proof.
  revert w. induction evs as [|e evs IH]; intros w H; simpl; [done|].
  by apply IH, orphaned_step.
Qed.

(** C3 on the code: a second [finish()] issued while the first is pending
    (no text accumulated yet) overwrites the only resolver slot.  The promise
    of the first call is then never resolved: not by the utterance-end
    signal, not by the close of the connection, not by either fallback
    timer, whatever happens afterwards. *)
Theorem C3_overlapped_finish_never_resolves (t0 : Z) (evs : list Event) :
  let w := run [CallFinish; CallFinish] (create t0) in
  promises (run evs w) !! 0%nat = Some None
  ∧ result (run evs w) 0 = None.
Proof.
  intros w.
  assert (orphaned (run evs w) 0) as [Hp _].
  { apply orphaned_run. by split. }
  split; [done|]. unfold result. by rewrite Hp.
Qed.

(** The same on one concrete schedule: both fallback timers fire, the
    provider signals utterance end and the connection closes. *)
Example overlapped_finish_trace :
  let w := run [CallFinish; CallFinish; Elapse 2000; UtteranceEnd; Close; Elapse 60000]
             (create 0) in
  promises w = [None; Some ""] ∧ timers w = [].
Proof. split; reflexivity. Qed.

(** One event keeps a promise either resolved or waiting for its timer, as
    long as the event is not another [finish()]. *)
Lemma waiting_step e w p due :
  is_finish e = false → waiting w p due →
  (∃ v, result (step e w) p = Some v) ∨ waiting (step e w) p due.
Proof.
  intros He (Hr & Hp & Hd & Hn).
  destruct e as [ |data| | | |c| | |d]; simpl in *;
    unfold on_open, on_transcript, on_utterance_end, on_error, on_close, send,
      close; try done.
  - right. by split_and!.
  - right. destruct (JS.truthy _); by split_and!.
  - left. eexists. by apply settle_resolves.
  - right. by split_and!.
  - left. eexists. by apply (settle_resolves (with_stream (set_isOpen false) w)).
  - right. destruct (_ && _); by split_and!.
  - right. destruct (connection _); by split_and!.
  - destruct (0 <=? d) eqn:Ed; [|right; by split_and!]. apply Z.leb_le in Ed.
    unfold elapse.
    destruct (filter (λ dl, dl ≤ now w + d) (timers w)) as [|d1 due1] eqn:Edue.
    + right. simpl. split_and!; auto.
      * apply list_elem_of_filter. split; [|done].
        destruct (decide (due ≤ now w + d)) as [Hle|]; [|lia].
        assert (due ∈ filter (λ dl, dl ≤ now w + d) (timers w)) as Hin
          by by apply list_elem_of_filter.
        rewrite Edue in Hin. by apply elem_of_nil in Hin.
      * simpl. destruct (decide (due ≤ now w + d)) as [Hle|]; [|lia].
        assert (due ∈ filter (λ dl, dl ≤ now w + d) (timers w)) as Hin
          by by apply list_elem_of_filter.
        rewrite Edue in Hin. by apply elem_of_nil in Hin.
    + left. exists (fullTranscript (stream w)). unfold result. simpl.
      by apply (settle_all_resolves (d1 :: due1)).
Qed.

Lemma waiting_run evs w p due :
  forallb (λ e, negb (is_finish e)) evs = true → waiting w p due →
  (∃ v, result (run evs w) p = Some v) ∨ waiting (run evs w) p due.
Proof.
  revert w. induction evs as [|e evs IH]; intros w Hf Hw; simpl in *; [auto|].
  apply andb_prop in Hf as [He Hf]. apply negb_true_iff in He.
  destruct (waiting_step e w p due He Hw) as [[v Hv]|Hw'].
  - left. exists v. by apply result_run_keep.
  - by apply IH.
Qed.

(** A single [finish()] does resolve: with no other [finish()] issued
    meanwhile, its promise is resolved once the fallback delay has passed,
    at the latest. *)
Lemma finish_resolves_within_fallback w evs :
  forallb (λ e, negb (is_finish e)) evs = true →
  FALLBACK_MS ≤ elapsed evs →
  ∃ v, result (run evs (fst (finish w))) (snd (finish w)) = Some v.
Proof.
  intros Hf Hel. unfold finish.
  destruct (JS.truthy (fullTranscript (stream w))) eqn:Et; simpl.
  - exists (fullTranscript (stream w)). apply result_run_keep.
    unfold result. simpl. by rewrite lookup_app_r, Nat.sub_diag.
  - set (w1 := mkWorld _ _ _ _ _ _ _).
    assert (waiting w1 (length (promises w)) (now w + FALLBACK_MS)) as Hw.
    { split_and!; simpl.
      - done.
      - by rewrite lookup_app_r, Nat.sub_diag.
      - apply elem_of_app. right. by apply list_elem_of_singleton.
      - unfold FALLBACK_MS. lia. }
    destruct (waiting_run evs w1 _ _ Hf Hw) as [?|(_ & _ & _ & Hn)]; [done|].
    rewrite now_run in Hn. simpl in Hn. lia.
Qed.

(** The value is the transcript accumulated when the signal arrives. *)
Lemma finish_resolves_on_signal w p :
  resolveFinish (stream w) = Some p → promises w !! p = Some None →
  result (step UtteranceEnd w) p = Some (fullTranscript (stream w))
  ∧ result (step Close w) p = Some (fullTranscript (stream w)).
Proof.
  intros Hr Hp. split.
  - by apply settle_resolves.
  - by apply (settle_resolves (with_stream (set_isOpen false) w)).
Qed.

(** C10.  When text has been accumulated, [finish()] returns a promise that
    is resolved with that text by the call itself: no resolver is stored, no
    fallback timer is armed and no time passes.  Its value stays that text
    through every later event, so final segments that arrive afterwards are
    not part of it. *)
Theorem C10_finish_immediate (w : World) (evs : list Event) :
  JS.truthy (fullTranscript (stream w)) = true →
  let w1 := fst (finish w) in
  let p := snd (finish w) in
  result w1 p = Some (fullTranscript (stream w))
  ∧ resolveFinish (stream w1) = resolveFinish (stream w)
  ∧ timers w1 = timers w
  ∧ now w1 = now w
  ∧ result (run evs w1) p = Some (fullTranscript (stream w)).
Proof.
  intros Ht. unfold finish. rewrite Ht. simpl.
  assert (result (with_promises (λ ps, ps ++ [Some (fullTranscript (stream w))]) w)
            (length (promises w)) = Some (fullTranscript (stream w))) as Hres.
  { unfold result. simpl. by rewrite lookup_app_r, Nat.sub_diag. }
  split_and!; try done. by apply result_run_keep.
Qed.

(** After the final "hello", [finish()] yields "hello" at once; the final
    "world" that follows reaches the accumulated transcript but not the
    result. *)
Lemma C10_finish_immediate_witness :
  let w := run [final "hello"] (create 0) in
  let later := [final "world"; UtteranceEnd; Elapse 2000] in
  result (run later (fst (finish w))) (snd (finish w)) = Some "hello"
  ∧ fullTranscript (stream (run later (fst (finish w)))) = "hello world".
Proof.
  intros w later. split; [|reflexivity].
  apply (C10_finish_immediate w later). reflexivity.
Defined.

End FinishClaims.

(** ** The session orchestrator *)

Section HandlerFacts.
Import Handler.

Lemma sent_send m w : sent (send m w) = sent w ++ delivered w [m].
Proof. unfold send, delivered. destruct (ws_open w); simpl; by rewrite ?app_nil_r. Qed.

Lemma ws_open_send m w : ws_open (send m w) = ws_open w.
Proof. unfold send. by destruct (ws_open w) eqn:E. Qed.

Lemma delivered_app w l l' : delivered w (l ++ l') = delivered w l ++ delivered w l'.
Proof. unfold delivered. by destruct (ws_open w). Qed.

(** Sending two messages in a row. *)
Lemma sent_send2 m1 m2 w :
  sent (send m2 (send m1 w)) = sent w ++ delivered w [m1; m2].
Proof.
  rewrite !sent_send. unfold delivered. rewrite ws_open_send.
  destruct (ws_open w); simpl; by rewrite <- ?app_assoc, ?app_nil_r.
Qed.

Lemma send_frame m w :
  session (send m w) = session w ∧ timers (send m w) = timers w
  ∧ streams (send m w) = streams w ∧ stt_calls (send m w) = stt_calls w
  ∧ stage_calls (send m w) = stage_calls w ∧ tasks (send m w) = tasks w
  ∧ registered (send m w) = registered w ∧ clock (send m w) = clock w.
Proof. unfold send. by destruct (ws_open w). Qed.



End HandlerFacts.

Section PipelineClaims.
Import Handler.

(** Unfold the sending primitives and split on the state of the socket. *)
Ltac by_socket w :=
  let E := fresh "Hopen" in
  unfold catch_block, sendStatus, sendError, send, delivered, set_task,
    stage_call, stt_call, set_sttStream, with_tasks, with_session;
  simpl; destruct (ws_open w) eqn:E; simpl; rewrite ?E; simpl;
  rewrite <- ?app_assoc, ?app_nil_r; simpl.



(** C9.  When response generation yields a response, the text handed to
    [generateTTS] is its summary and nothing else: the call is logged with
    the summary, the task awaits speech for the summary, and the input of
    the speech request is the summary cut to [MAX_TTS_LENGTH] characters.
    The key points and the follow-up action reach the client in the
    [llm_response] message only. *)
Theorem C9_only_summary_is_synthesized
    (w : World) (k : nat) (finalText : string)
    (reply : Outcome (option LLMResponse)) (r : LLMResponse) :
  tasks w !! k = Some (AwaitLlm finalText) →
  generateLLMResponse finalText reply = Resolved r →
  let w' := step (LlmReplies k reply) w in
  formatForTTS r = summary r
  ∧ stage_calls w' = stage_calls w ++ [GenerateTTS (summary r)]
  ∧ tasks w' = <[k := AwaitTts (summary r)]> (tasks w)
  ∧ tts_request (formatForTTS r) = JS.slice0 MAX_TTS_LENGTH (summary r)
  ∧ sent w' = sent w ++ delivered w [llm_response r; status processing_tts].
Proof.
  intros Hk Hr. simpl. rewrite Hk, Hr. unfold resume_llm, formatForTTS.
  by_socket w; done.
Qed.

Lemma C9_only_summary_is_synthesized_witness :
  let w' := step (LlmReplies 0 (Resolved (Some sample_response))) generating in
  stage_calls w' = [GenerateLLMResponse "hello"; GenerateTTS "Hi there"].
Proof.
  destruct (C9_only_summary_is_synthesized generating 0 "hello"
              (Resolved (Some sample_response)) sample_response)
    as (_ & H & _); [reflexivity|reflexivity|].
  exact H.
Defined.




End PipelineClaims.

Section CancelClaims.
Import Handler.

Lemma clear_at_not_pending h ts t :
  clear_at h ts !! h = Some t → is_pending t = false.
Proof.
  unfold clear_at. destruct (ts !! h) as [[k [ | | ]]|] eqn:E; intros H;
    try (rewrite E in H; by simplify_eq).
  rewrite list_lookup_insert_eq in H by by eapply lookup_lt_Some.
  by simplify_eq.
Qed.

Lemma clear_at_keeps h h' ts t :
  clear_at h' ts !! h = Some t →
  (∀ t0, ts !! h = Some t0 → is_pending t0 = false) →
  is_pending t = false.
Proof.
  intros H Hts. destruct (decide (h' = h)) as [->|Hne].
  - by eapply clear_at_not_pending.
  - unfold clear_at in H.
    destruct (ts !! h') as [[k [ | | ]]|]; try by apply Hts.
    rewrite list_lookup_insert_ne in H by done. by apply Hts.
Qed.

(** After [clear_timers] the session holds no timer and the two it held
    cannot fire. *)
Lemma clear_timers_cleared w :
  vadTimeout (session (clear_timers w)) = None
  ∧ maxDurationTimeout (session (clear_timers w)) = None
  ∧ ∀ h t, vadTimeout (session w) = Some h ∨ maxDurationTimeout (session w) = Some h →
      timers (clear_timers w) !! h = Some t → is_pending t = false.
Proof.
  unfold clear_timers.
  destruct (vadTimeout (session w)) as [hv|] eqn:Ev;
    destruct (maxDurationTimeout (session w)) as [hm|] eqn:Em; simpl;
    rewrite ?Ev, ?Em; simpl; (split_and!; [done|done|]);
    intros h t [?|?] Ht; simplify_eq;
    eauto using clear_at_not_pending, clear_at_keeps.
Qed.

(** A timer that fires once the session is cancelled does nothing but be
    marked as fired. *)
Lemma stray_timer_inert h w :
  isCancelled (session w) = true →
  sent (step (TimerFires h) w) = sent w
  ∧ session (step (TimerFires h) w) = session w
  ∧ tasks (step (TimerFires h) w) = tasks w
  ∧ stt_calls (step (TimerFires h) w) = stt_calls w.
Proof.
  intros Hc. simpl.
  destruct (timers w !! h) as [[[|] [ | | ]]|]; try done;
    unfold vad_callback, maxDuration_callback; simpl; by rewrite Hc.
Qed.

Lemma cancel_session w :
  let w1 := step (Message cancel) w in
  session w1 = mkSession None (startTime (session w)) (lastActivityTime (session w))
                 true None None.
Proof.
  simpl. unfold sendStatus. destruct (send_frame (status idle)
    (cleanupSession (set_isCancelled true w))) as (-> & _).
  destruct w as [[[s|] st la c [hv|] [hm|]] o sn tm str sc sg tk rg ck]; done.
Qed.

(** Cleaning up a session that is idle and cancelled changes nothing. *)
Lemma cleanup_idle w :
  Idle (session w) → isCancelled (session w) = true →
  same_state w (cleanupSession (set_isCancelled true w)).
Proof.
  intros (Hs & Hv & Hm) Hc.
  destruct w as [[s st la c hv hm] o sn tm str sc sg tk rg ck].
  simpl in *. subst. by unfold same_state.
Qed.

(** C5, as the code has it.  [cancel] leaves the session idle (no stream,
    no timer held, the two timers it held unable to fire) and cancelled, and
    sends the idle status.  A second [cancel] changes nothing in the session,
    its timers, its stream or its running activations, and sends no error,
    but it does send the idle status once more: every [cancel] is answered
    by one idle status.  A timer firing afterwards has no effect. *)
Theorem C5_cancel_twice (w : World) :
  let w1 := step (Message cancel) w in
  let w2 := step (Message cancel) w1 in
  Idle (session w1) ∧ isCancelled (session w1) = true
  ∧ (∀ h t, vadTimeout (session w) = Some h ∨ maxDurationTimeout (session w) = Some h →
       timers w1 !! h = Some t → is_pending t = false)
  ∧ sent w1 = sent w ++ delivered w [status idle]
  ∧ sent w2 = sent w1 ++ delivered w [status idle]
  ∧ same_state w1 w2
  ∧ (∀ h, sent (step (TimerFires h) w2) = sent w2
          ∧ session (step (TimerFires h) w2) = session w2
          ∧ tasks (step (TimerFires h) w2) = tasks w2).
Proof.
  intros w1 w2.
  pose proof (cancel_session w) as Hs1. fold w1 in Hs1.
  assert (Idle (session w1) ∧ isCancelled (session w1) = true) as [Hidle Hc].
  { rewrite Hs1. by repeat split. }
  assert (ws_open w1 = ws_open w) as Ho.
  { unfold w1. simpl. unfold sendStatus. rewrite ws_open_send.
    destruct w as [[[s|] st la c [hv|] [hm|]] o sn tm str sc sg tk rg ck]; done. }
  assert (same_state w1 w2) as Hsame.
  { unfold w2. simpl. unfold sendStatus.
    destruct (cleanup_idle w1 Hidle Hc) as (E1 & E2 & E3 & E4 & E5 & E6 & E7 & E8 & E9).
    destruct (send_frame (status idle) (cleanupSession (set_isCancelled true w1)))
      as (F1 & F3 & F4 & F5 & F6 & F7 & F8 & F9).
    unfold same_state. rewrite ws_open_send.
    split_and!; congruence. }
  split_and!; try done.
  - intros h t Hh Ht. unfold w1 in Ht. simpl in Ht. unfold sendStatus in Ht.
    destruct (send_frame (status idle) (cleanupSession (set_isCancelled true w)))
      as (_ & F & _). rewrite F in Ht. clear F.
    destruct (clear_timers_cleared (set_isCancelled true w)) as (_ & _ & H).
    apply (H h t Hh). revert Ht. unfold cleanupSession. simpl.
    by destruct (sttStream (session (clear_timers (set_isCancelled true w)))).
  - unfold w1. simpl. unfold sendStatus. rewrite sent_send.
    destruct w as [[[s|] st la c [hv|] [hm|]] o sn tm str sc sg tk rg ck]; done.
  - unfold w2. simpl. unfold sendStatus. rewrite sent_send.
    destruct (cleanup_idle w1 Hidle Hc) as (_ & E2 & _).
    unfold delivered. rewrite E2, Ho. f_equal.
    clear -Hidle Hc. revert Hidle Hc. generalize w1. clear w1.
    intros [[s st la c hv hm] o sn tm str sc sg tk rg ck] (? & ? & ?) ?.
    simpl in *. by subst.
  - intros h. destruct Hsame as (E & _). rewrite <- E in Hc.
    destruct (stray_timer_inert h w2 Hc) as (? & ? & ? & _). done.
Qed.

(** While listening, with both timers armed: the silence timer, handle 1,
    cannot fire after the cancel. *)
Lemma C5_cancel_twice_witness :
  let w := run [Message (audio_chunk "AAAA")] (connect 0) in
  let w1 := step (Message cancel) w in
  vadTimeout (session w) = Some 1%nat
  ∧ ∀ t, timers w1 !! 1%nat = Some t → is_pending t = false.
Proof.
  intros w w1. split; [reflexivity|].
  destruct (C5_cancel_twice w) as (_ & _ & H & _).
  intros t. apply H. left. reflexivity.
Defined.

(** C5 as stated fails on a fresh connection: the first [cancel] sends one
    idle status, the second sends another. *)
Lemma C5_counterexample :
  sent (run [Message cancel] (connect 0)) = [status idle; status idle]
  ∧ sent (run [Message cancel; Message cancel] (connect 0))
    = [status idle; status idle; status idle]
  ∧ ¬ spec_cancel_idempotent (connect 0).
Proof. split_and!; [reflexivity|reflexivity|]. intros H. discriminate H. Qed.

End CancelClaims.

Section TraceFacts.
Import Handler.

Lemma extends_refl w : extends w w.
Proof. exists []. by rewrite app_nil_r. Qed.

Lemma extends_trans w1 w2 w3 : extends w1 w2 → extends w2 w3 → extends w1 w3.
Proof.
  intros [l1 H1] [l2 H2]. exists (l1 ++ l2). by rewrite H2, H1, app_assoc.
Qed.

Lemma extends_eq w w' : sent w' = sent w → extends w w'.
Proof. intros H. exists []. by rewrite app_nil_r. Qed.

Lemma extends_send m w : extends w (send m w).
Proof. exists (delivered w [m]). apply sent_send. Qed.

Lemma sent_clear_timers w : sent (clear_timers w) = sent w.
Proof.
  unfold clear_timers.
  destruct (vadTimeout (session w)); simpl;
    by destruct (maxDurationTimeout _).
Qed.

Lemma sent_resetVadTimeout w : sent (resetVadTimeout w) = sent w.
Proof. unfold resetVadTimeout. by destruct (vadTimeout (session w)). Qed.

Lemma sent_cleanupSession w : sent (cleanupSession w) = sent w.
Proof.
  unfold cleanupSession. simpl.
  destruct (sttStream (session (clear_timers w))); simpl; apply sent_clear_timers.
Qed.

Lemma extends_finishRecording w : extends w (finishRecording w).
Proof.
  unfold finishRecording. destruct (sttStream (session w)); simpl.
  - eapply extends_trans; [|apply extends_eq; simpl; reflexivity].
    eapply extends_trans; [apply extends_eq, sent_clear_timers|].
    apply extends_send.
  - eapply extends_trans; [apply extends_eq, sent_clear_timers|].
    apply extends_send.
Qed.

Lemma extends_catch_block e w : extends w (catch_block e w).
Proof.
  unfold catch_block. eapply extends_trans; apply extends_send.
Qed.

Lemma extends_set_task k t w w' : extends w w' → extends w (set_task k t w').
Proof. intros H. eapply extends_trans; [exact H|]. by apply extends_eq. Qed.

Lemma extends_resume_stt k s r w : extends w (resume_stt k s r w).
Proof.
  unfold resume_stt. destruct r as [finalText|e].
  - destruct (negb _); apply extends_set_task.
    + eapply extends_trans; [|apply extends_send].
      eapply extends_trans; [|apply extends_send]. by apply extends_eq.
    + eapply extends_trans; [|by apply extends_eq].
      eapply extends_trans; [|apply extends_send].
      eapply extends_trans; [|apply extends_send]. by apply extends_eq.
  - apply extends_set_task, extends_catch_block.
Qed.

Lemma extends_resume_llm k r w : extends w (resume_llm k r w).
Proof.
  unfold resume_llm. destruct r as [llmResponse|e]; apply extends_set_task.
  - eapply extends_trans; [|by apply extends_eq].
    eapply extends_trans; apply extends_send.
  - apply extends_catch_block.
Qed.

Lemma extends_resume_tts k r w : extends w (resume_tts k r w).
Proof.
  unfold resume_tts. destruct r as [[a m]|e]; apply extends_set_task.
  - eapply extends_trans; apply extends_send.
  - apply extends_catch_block.
Qed.

Lemma extends_handleMessage m w : extends w (handleMessage m w).
Proof.
  destruct m as [data| | |]; simpl.
  - destruct (isCancelled (session w)); [apply extends_refl|].
    eapply extends_trans; [|apply extends_eq, sent_resetVadTimeout].
    destruct (sttStream (session w)) eqn:Es; simpl; rewrite ?Es; simpl.
    + by apply extends_eq.
    + eapply extends_trans; [|by apply extends_eq].
      eapply extends_trans; [|apply extends_send]. by apply extends_eq.
  - apply extends_finishRecording.
  - eapply extends_trans; [|apply extends_send].
    apply extends_eq. by rewrite sent_cleanupSession.
  - apply extends_refl.
Qed.

(** The output trace only grows: what has been sent stays in place and
    anything sent later comes after it. *)
Lemma sent_step_extends e w : extends w (step e w).
Proof.
  destruct e as [m| |text isFinal|h|k r|k r|k r| | | |d]; simpl.
  - apply extends_handleMessage.
  - apply extends_send.
  - unfold onPartial. destruct (isCancelled (session w)); [apply extends_refl|].
    eapply extends_trans; [apply extends_send|].
    apply extends_eq, sent_resetVadTimeout.
  - destruct (timers w !! h) as [[[|] [ | | ]]|]; try apply extends_refl.
    + unfold vad_callback. destruct (_ && _); [|by apply extends_eq].
      eapply extends_trans; [|apply extends_finishRecording]. by apply extends_eq.
    + unfold maxDuration_callback. destruct (negb _); [|by apply extends_eq].
      eapply extends_trans; [|apply extends_finishRecording].
      eapply extends_trans; [|apply extends_send]. by apply extends_eq.
  - destruct (tasks w !! k) as [[s| | |]|]; try apply extends_refl.
    apply extends_resume_stt.
  - destruct (tasks w !! k) as [[|finalText| |]|]; try apply extends_refl.
    apply extends_resume_llm.
  - destruct (tasks w !! k) as [[| |ttsText|]|]; try apply extends_refl.
    apply extends_resume_tts.
  - by apply extends_eq.
  - apply extends_eq. unfold set_registered. cbn [sent].
    by rewrite sent_cleanupSession.
  - apply extends_eq. unfold set_registered. cbn [sent].
    by rewrite sent_cleanupSession.
  - destruct (0 <=? d); by apply extends_eq.
Qed.

Lemma sent_run_extends evs w : extends w (run evs w).
Proof.
  revert w. induction evs as [|e evs IH]; intros w; simpl.
  - apply extends_refl.
  - eapply extends_trans; [apply sent_step_extends|apply IH].
Qed.

(** The flag never goes back to [false]. *)
Lemma isCancelled_step e w :
  isCancelled (session w) = true → isCancelled (session (step e w)) = true.
Proof.
  intros Hc.
  destruct e as [m| |text isFinal|h|k r|k r|k r| | | |d]; simpl; try done.
  - destruct m; simpl; rewrite ?Hc; try done.
    + unfold finishRecording.
      destruct w as [[[s|] st la c [hv|] [hm|]] [|] sn tm str sc sg tk rg ck]; done.
    + unfold sendStatus. by destruct (send_frame (status idle)
        (cleanupSession (set_isCancelled true w))) as (-> & _).
  - unfold sendError. by destruct (send_frame (error "Failed to process message"
      INVALID_INPUT) w) as (-> & _).
  - unfold onPartial. by rewrite Hc.
  - destruct (stray_timer_inert h w Hc) as (_ & E & _). simpl in E. by rewrite E.
  - destruct (tasks w !! k) as [[s| | |]|]; try done.
    unfold resume_stt, catch_block, sendStatus, sendError.
    destruct r as [finalText|e]; [destruct (negb _)|];
      destruct w as [ss [|] sn tm str sc sg tk rg ck]; done.
  - destruct (tasks w !! k) as [[|finalText| |]|]; try done.
    unfold resume_llm, catch_block, sendStatus, sendError.
    destruct (generateLLMResponse finalText r);
      destruct w as [ss [|] sn tm str sc sg tk rg ck]; done.
  - destruct (tasks w !! k) as [[| |ttsText|]|]; try done.
    unfold resume_tts, catch_block, sendStatus, sendError.
    destruct (generateTTS ttsText r) as [[a m]|e];
      destruct w as [ss [|] sn tm str sc sg tk rg ck]; done.
  - by destruct (0 <=? d).
Qed.

End TraceFacts.

Section TimerClaims.
Import Handler.

Lemma trim_truthy s : JS.blank s = false → JS.truthy (JS.trim s) = true.
Proof.
  intros Hb. destruct (JS.truthy (JS.trim s)) eqn:E; [done|].
  apply truthy_false, trim_empty_iff_blank in E. congruence.
Qed.

(** C7.  When the duration-cap timer fires while the session is listening,
    the MAX_DURATION error is sent at once, and in the same step the
    recording enters finalization: [finish()] is called on the stream, which
    is neither closed nor dropped, and the activation awaits its text.  Any
    text with content that [finish()] then yields is sent as the
    [final_transcript]; it and everything else sent later come after the
    MAX_DURATION error in the output. *)
Theorem C7_duration_cap_notice_then_finalize (w : World) (s h : nat) :
  Listening w s →
  timers w !! h = Some (MaxDurationTimer, Pending) →
  let w1 := step (TimerFires h) w in
  let k := length (tasks w) in
  sent w1 = sent w ++ delivered w [error "Maximum recording duration reached" MAX_DURATION;
                                   status processing_stt]
  ∧ tasks w1 = tasks w ++ [AwaitStt s]
  ∧ stt_calls w1 = stt_calls w ++ [(s, SttFinish)]
  ∧ sttStream (session w1) = Some s
  ∧ (∀ finalText, JS.blank finalText = false →
       sent (step (SttSettles k (Resolved finalText)) w1)
       = sent w1 ++ delivered w [final_transcript finalText; status processing_llm])
  ∧ (∀ evs, extends w1 (run evs w1)).
Proof.
  intros [Hs Hc] Ht w1 k.
  assert (w1 = finishRecording
                 (sendError "Maximum recording duration reached" MAX_DURATION
                    (with_timers (λ ts, <[h := (MaxDurationTimer, Fired)]> ts) w)))
    as Hw1.
  { unfold w1. simpl. rewrite Ht. unfold maxDuration_callback. simpl.
    by rewrite Hc. }
  assert (sent w1 = sent w ++ delivered w [error "Maximum recording duration reached"
                                             MAX_DURATION; status processing_stt]
          ∧ tasks w1 = tasks w ++ [AwaitStt s]
          ∧ stt_calls w1 = stt_calls w ++ [(s, SttFinish)]
          ∧ sttStream (session w1) = Some s
          ∧ ws_open w1 = ws_open w) as (H1 & H2 & H3 & H4 & H5).
  { rewrite Hw1. clear Hw1 w1 Ht.
    destruct w as [[s0 st la c [hv|] [hm|]] [|] sn tm str sc sg tk rg ck];
      simpl in *; subst; unfold delivered; simpl;
      rewrite <- ?app_assoc, ?app_nil_r; done. }
  split_and!; try done.
  - intros finalText Hb. simpl. subst k. rewrite H2, list_lookup_middle by done.
    unfold resume_stt. rewrite (trim_truthy _ Hb). simpl.
    unfold sendStatus. rewrite sent_send2. unfold delivered. simpl. by rewrite H5.
  - intros evs. apply sent_run_extends.
Qed.

(** Right after the first audio chunk: handle 0 is the duration-cap timer. *)
Lemma C7_duration_cap_notice_then_finalize_witness :
  let w := run [Message (audio_chunk "AAAA")] (connect 0) in
  let w1 := step (TimerFires 0) w in
  sent w1 = [status idle; status listening;
             error "Maximum recording duration reached" MAX_DURATION;
             status processing_stt]
  ∧ sent (step (SttSettles 0 (Resolved "so far")) w1)
    = sent w1 ++ [final_transcript "so far"; status processing_llm].
Proof.
  intros w w1.
  destruct (C7_duration_cap_notice_then_finalize w 0 0) as (H1 & _ & _ & _ & H2 & _);
    [split; reflexivity|reflexivity|].
  split; [exact H1|]. apply (H2 "so far"). reflexivity.
Defined.

(** C1 on the code: [finishRecording] never reads the flag.  With [cancel]
    arriving while the transcript is awaited, the transcript and the
    processing status are still sent; arriving while the response is
    awaited, the response, the audio and the statuses are still sent, and
    speech synthesis is still called. *)
Theorem C1_cancelled_run_still_sends :
  let stopping := run [Message (audio_chunk "AAAA"); Message stop_recording] (connect 0) in
  let a := step (Message cancel) stopping in
  let b := step (Message cancel) generating in
  let b' := run [LlmReplies 0 (Resolved (Some sample_response));
                 TtsReplies 0 (Resolved "SUQz")] b in
  isCancelled (session a) = true
  ∧ sent (step (SttSettles 0 (Resolved "hello")) a)
    = sent a ++ [final_transcript "hello"; status processing_llm]
  ∧ isCancelled (session b) = true
  ∧ sent b' = sent b ++ [llm_response sample_response; status processing_tts;
                         tts_audio "SUQz" "audio/mpeg"; status ready_to_play]
  ∧ stage_calls b' = stage_calls b ++ [GenerateTTS "Hi there"].
Proof. split_and!; reflexivity. Qed.

(** In general the three continuations behave the same whether or not the
    session is cancelled: setting the flag first or afterwards gives the
    same world. *)
Lemma resume_ignores_cancelled (w : World) (e : Event) (b : bool) :
  match e with SttSettles _ _ | LlmReplies _ _ | TtsReplies _ _ => True | _ => False end →
  step e (set_isCancelled b w) = set_isCancelled b (step e w).
Proof.
  destruct e as [m| |text isFinal|h|k r|k r|k r| | | |d]; try done; intros _; simpl.
  - destruct (tasks w !! k) as [[s| | |]|]; try done.
    unfold resume_stt, catch_block, sendStatus, sendError.
    destruct r as [finalText|e]; [destruct (negb _)|];
      destruct w as [ss [|] sn tm str sc sg tk rg ck]; done.
  - destruct (tasks w !! k) as [[|finalText| |]|]; try done.
    unfold resume_llm, catch_block, sendStatus, sendError.
    destruct (generateLLMResponse finalText r);
      destruct w as [ss [|] sn tm str sc sg tk rg ck]; done.
  - destruct (tasks w !! k) as [[| |ttsText|]|]; try done.
    unfold resume_tts, catch_block, sendStatus, sendError.
    destruct (generateTTS ttsText r) as [[a m]|e];
      destruct w as [ss [|] sn tm str sc sg tk rg ck]; done.
Qed.

End TimerClaims.

Section Scenarios.

(** The orchestrator does issue overlapping [finish()] calls: a second stop
    request while the first activation still awaits the transcript calls
    [finish()] again on the same stream. *)
Example second_stop_calls_finish_again :
  let w := Handler.run [Handler.Message (Handler.audio_chunk "AAAA");
                        Handler.Message Handler.stop_recording;
                        Handler.Message Handler.stop_recording] (Handler.connect 0) in
  Handler.stt_calls w
  = [(0%nat, Handler.SttSend "AAAA"); (0%nat, Handler.SttFinish); (0%nat, Handler.SttFinish)]
  ∧ Handler.tasks w = [Handler.AwaitStt 0; Handler.AwaitStt 0].
Proof. split; reflexivity. Qed.

(** So does the silence timer when a partial segment re-arms it during the
    wait. *)
Example rearmed_silence_timer_calls_finish_again :
  let w := Handler.run [Handler.Message (Handler.audio_chunk "AAAA");
                        Handler.Message Handler.stop_recording;
                        Handler.OnPartial " hel" false;
                        Handler.TimerFires 2] (Handler.connect 0) in
  Handler.tasks w = [Handler.AwaitStt 0; Handler.AwaitStt 0].
Proof. reflexivity. Qed.

End Scenarios.

Section StageCallFacts.
Import Handler.

Lemma stage_calls_send m w : stage_calls (send m w) = stage_calls w.
Proof. by destruct (send_frame m w) as (_ & _ & _ & _ & -> & _). Qed.

Lemma stage_calls_clear_timers w : stage_calls (clear_timers w) = stage_calls w.
Proof.
  unfold clear_timers.
  destruct (vadTimeout (session w)); simpl; by destruct (maxDurationTimeout _).
Qed.

Lemma stage_calls_finishRecording w : stage_calls (finishRecording w) = stage_calls w.
Proof.
  unfold finishRecording, sendStatus.
  destruct (sttStream (session w)); simpl;
    by rewrite stage_calls_send, stage_calls_clear_timers.
Qed.

Lemma stage_calls_cleanupSession w : stage_calls (cleanupSession w) = stage_calls w.
Proof.
  unfold cleanupSession. simpl.
  destruct (sttStream (session (clear_timers w))); simpl;
    apply stage_calls_clear_timers.
Qed.

Lemma stage_calls_resetVadTimeout w : stage_calls (resetVadTimeout w) = stage_calls w.
Proof. unfold resetVadTimeout. by destruct (vadTimeout (session w)). Qed.

Lemma stage_calls_catch_block e w : stage_calls (catch_block e w) = stage_calls w.
Proof. unfold catch_block, sendStatus, sendError. by rewrite !stage_calls_send. Qed.

(** The log of stage calls grows only where an activation resumes, by the
    call that activation makes next. *)
Lemma stage_calls_step e w :
  stage_calls (step e w) = stage_calls w ++ new_stage_calls e w.
Proof.
  destruct e as [m| |text isFinal|h|k r|k r|k r| | | |d]; simpl;
    rewrite ?app_nil_r.
  - destruct m as [data| | |]; simpl; try done.
    + destruct w as [[[s|] st la [|] [hv|] hm] [|] sn tm str sc sg tk rg ck]; done.
    + apply stage_calls_finishRecording.
    + unfold sendStatus. by rewrite stage_calls_send, stage_calls_cleanupSession.
  - apply stage_calls_send.
  - unfold onPartial. destruct (isCancelled (session w)); [done|].
    by rewrite stage_calls_resetVadTimeout, stage_calls_send.
  - destruct (timers w !! h) as [[[|] [ | | ]]|]; try done.
    + unfold vad_callback. destruct (_ && _); [|done].
      by rewrite stage_calls_finishRecording.
    + unfold maxDuration_callback. destruct (negb _); [|done].
      unfold sendError. by rewrite stage_calls_finishRecording, stage_calls_send.
  - destruct (tasks w !! k) as [[s|ft|tt|]|]; destruct r as [finalText|e];
      rewrite ?app_nil_r; try done.
    + unfold resume_stt. destruct (JS.truthy (JS.trim finalText)); simpl.
      * unfold sendStatus. by rewrite !stage_calls_send.
      * unfold sendStatus, sendError. by rewrite !stage_calls_send, app_nil_r.
    + unfold resume_stt. simpl. apply stage_calls_catch_block.
  - destruct (tasks w !! k) as [[|finalText| |]|]; rewrite ?app_nil_r; try done.
    unfold resume_llm. destruct (generateLLMResponse finalText r); simpl.
    + unfold sendStatus. by rewrite !stage_calls_send.
    + by rewrite stage_calls_catch_block, app_nil_r.
  - destruct (tasks w !! k) as [[| |ttsText|]|]; try done.
    unfold resume_tts. destruct (generateTTS ttsText r) as [[a m]|e]; simpl.
    + unfold sendStatus. by rewrite !stage_calls_send.
    + by rewrite stage_calls_catch_block.
  - done.
  - destruct w as [[[s|] st la c [hv|] [hm|]] o sn tm str sc sg tk rg ck]; done.
  - destruct w as [[[s|] st la c [hv|] [hm|]] o sn tm str sc sg tk rg ck]; done.
  - by destruct (0 <=? d).
Qed.

Lemma stage_calls_run evs w c :
  c ∈ stage_calls (run evs w) →
  c ∈ stage_calls w ∨ ∃ e w', e ∈ evs ∧ c ∈ new_stage_calls e w'.
Proof.
  revert w. induction evs as [|e evs IH]; intros w; simpl; [auto|].
  intros [Hc|(e' & w' & He & Hc)]%IH.
  - rewrite stage_calls_step in Hc. apply elem_of_app in Hc as [Hc|Hc]; [auto|].
    right. exists e, w. split; [apply list_elem_of_here|done].
  - right. exists e', w'. split; [by apply list_elem_of_further|done].
Qed.

(** Over a whole connection, response generation is never called with a
    blank transcript. *)
Lemma llm_input_never_blank t evs input :
  GenerateLLMResponse input ∈ stage_calls (run evs (connect t)) →
  JS.blank input = false.
Proof.
  intros [Hc|(e & w' & _ & Hc)]%stage_calls_run.
  - by apply elem_of_nil in Hc.
  - destruct e as [m| |text isFinal|h|k r|k r|k r| | | |d]; simpl in Hc;
      try by apply elem_of_nil in Hc.
    + destruct r as [finalText|e]; [|by destruct (tasks w' !! k) as [[| | |]|];
                                        apply elem_of_nil in Hc].
      destruct (tasks w' !! k) as [[s| | |]|]; try by apply elem_of_nil in Hc.
      destruct (JS.truthy (JS.trim finalText)) eqn:E; [|by apply elem_of_nil in Hc].
      apply list_elem_of_singleton in Hc. simplify_eq.
      destruct (JS.blank finalText) eqn:Eb; [|done].
      apply trim_empty_iff_blank in Eb. by rewrite Eb in E.
    + destruct (tasks w' !! k) as [[|finalText| |]|]; try by apply elem_of_nil in Hc.
      destruct (generateLLMResponse finalText r); [|by apply elem_of_nil in Hc].
      apply list_elem_of_singleton in Hc. done.
Qed.

(** Over a whole connection, every text handed to speech synthesis is the
    summary of a response that response generation resolved with. *)
Lemma tts_text_is_a_summary t evs text :
  GenerateTTS text ∈ stage_calls (run evs (connect t)) →
  ∃ k reply finalText r,
    LlmReplies k reply ∈ evs
    ∧ generateLLMResponse finalText reply = Resolved r
    ∧ text = summary r.
Proof.
  intros [Hc|(e & w' & He & Hc)]%stage_calls_run.
  - by apply elem_of_nil in Hc.
  - destruct e as [m| |txt isFinal|h|k r|k r|k r| | | |d]; simpl in Hc;
      try by apply elem_of_nil in Hc.
    + destruct r as [finalText|e]; [|by destruct (tasks w' !! k) as [[| | |]|];
                                        apply elem_of_nil in Hc].
      destruct (tasks w' !! k) as [[s| | |]|]; try by apply elem_of_nil in Hc.
      destruct (JS.truthy (JS.trim finalText)); [|by apply elem_of_nil in Hc].
      apply list_elem_of_singleton in Hc. done.
    + destruct (tasks w' !! k) as [[|finalText| |]|]; try by apply elem_of_nil in Hc.
      destruct (generateLLMResponse finalText r) as [x|] eqn:E;
        [|by apply elem_of_nil in Hc].
      apply list_elem_of_singleton in Hc. simplify_eq.
      by exists k, r, finalText, x.
Qed.

End StageCallFacts.

(** ** Further properties of the connection gate *)

Section IdentityFacts.
Import Registry.

Lemma occurs_trimStart c s : occurs c (JS.trimStart s) = true → occurs c s = true.
Proof.
  induction s as [|a s IH]; simpl; [done|].
  destruct (JS.isWhiteSpace a); simpl; [|done].
  intros H. rewrite (IH H). by rewrite orb_true_r.
Qed.

Lemma occurs_trimEnd c s : occurs c (JS.trimEnd s) = true → occurs c s = true.
Proof.
  induction s as [|a s IH]; simpl; [done|].
  destruct (JS.trimEnd s) as [|b t] eqn:E.
  - destruct (JS.isWhiteSpace a); simpl; [done|].
    rewrite orb_false_r. by intros ->.
  - simpl in *. destruct (Ascii.eqb c a); simpl; [done|]. apply IH.
Qed.

Lemma before_comma_no_comma h : occurs "," (before_comma h) = false.
Proof.
  induction h as [|a h IH]; [done|]. cbn [before_comma].
  destruct (Ascii.eqb a ",") eqn:E; [done|]. cbn [occurs].
  by rewrite IH, orb_false_r, Ascii.eqb_sym.
Qed.

Lemma truthy_nonempty s : JS.truthy s = true → s ≠ "".
Proof. by destruct s. Qed.

(** X1.  The client identity used by the gate is never the empty string.
    When the first comma-separated entry of the [x-forwarded-for] header is
    not blank, the identity is that entry trimmed: it holds no comma and the
    address of the socket plays no part in it.  Otherwise the identity is the
    address of the socket, or ["unknown"] when that is missing or empty. *)
Theorem client_identity_from_header_first (forwarded remoteAddress : option string) :
  client_identity forwarded remoteAddress ≠ ""
  ∧ (∀ h, forwarded = Some h → JS.blank (before_comma h) = false →
       client_identity forwarded remoteAddress = JS.trim (before_comma h)
       ∧ occurs "," (client_identity forwarded remoteAddress) = false
       ∧ ∀ other, client_identity forwarded other
                  = client_identity forwarded remoteAddress)
  ∧ ((forwarded = None ∨ ∃ h, forwarded = Some h ∧ JS.blank (before_comma h) = true) →
       client_identity forwarded remoteAddress =
         match remoteAddress with
         | Some a => if JS.truthy a then a else "unknown"
         | None => "unknown"
         end).
Proof.
  split_and!.
  - unfold client_identity.
    destruct (JS.truthy (match forwarded with Some h => _ | None => _ end)) eqn:E.
    + by apply truthy_nonempty.
    + destruct remoteAddress as [a|]; [|done].
      destruct (JS.truthy a) eqn:Ea; [by apply truthy_nonempty|done].
  - intros h -> Hb. unfold client_identity.
    rewrite (trim_truthy _ Hb). split_and!; [done| |done].
    destruct (occurs "," (JS.trim (before_comma h))) eqn:E; [|done].
    apply occurs_trimEnd, occurs_trimStart in E.
    by rewrite before_comma_no_comma in E.
  - intros [->|(h & -> & Hb)]; unfold client_identity; [done|].
    apply trim_empty_iff_blank in Hb as ->. done.
Qed.

Lemma client_identity_from_header_first_witness :
  client_identity (Some " 203.0.113.7 , 10.0.0.1") (Some "10.0.0.9") = "203.0.113.7"
  ∧ client_identity (Some " ,10.0.0.1") (Some "10.0.0.9") = "10.0.0.9".
Proof.
  destruct (client_identity_from_header_first (Some " 203.0.113.7 , 10.0.0.1")
              (Some "10.0.0.9")) as (_ & H1 & _).
  destruct (client_identity_from_header_first (Some " ,10.0.0.1")
              (Some "10.0.0.9")) as (_ & _ & H2).
  split.
  - destruct (H1 " 203.0.113.7 , 10.0.0.1" eq_refl eq_refl) as (-> & _).
    reflexivity.
  - rewrite H2; [reflexivity|]. right. by exists " ,10.0.0.1".
Defined.

(** X2.  What one client identity does never changes the count of another:
    a connection from [ip] and the close of a socket of [ip] leave the count
    of every other identity as it was.  The close of a socket the gate
    refused changes no count at all, so a refused attempt frees no slot. *)
Theorem registry_identities_are_isolated (s : Server) (ip' : string) :
  (∀ ip, ip ≠ ip' → count (on_connection ip s) ip' = count s ip')
  ∧ (∀ i k, sockets s !! i = Some k → clientIp k ≠ ip' →
       count (on_close i s) ip' = count s ip')
  ∧ (∀ i k, sockets s !! i = Some k → admitted k = false →
       ipConnections (on_close i s) = ipConnections s).
Proof.
  split_and!.
  - intros ip Hne. unfold on_connection, count.
    destruct (_ <=? _); simpl; [done|]. by rewrite lookup_insert_ne.
  - intros i k Hk Hne. unfold on_close, count. rewrite Hk.
    destruct (closed k); [done|]. simpl.
    destruct (admitted k); [|done]. unfold close_listener.
    destruct (_ <=? 1); [by rewrite lookup_delete_ne|by rewrite lookup_insert_ne].
  - intros i k Hk Ha. unfold on_close. rewrite Hk, Ha. by destruct (closed k).
Qed.

Lemma registry_identities_are_isolated_witness :
  let a := "203.0.113.7" in
  let b := "198.51.100.2" in
  let s := run [Connection a; Connection a; Connection a; Connection a; Connection b] init in
  count (on_close 0 s) b = 1
  ∧ ipConnections (on_close 3 s) = ipConnections s.
Proof.
  intros a b s.
  destruct (registry_identities_are_isolated s b) as (_ & H1 & _).
  destruct (registry_identities_are_isolated s a) as (_ & _ & H2).
  split.
  - rewrite (H1 0%nat (accepted a)); [reflexivity|reflexivity|discriminate].
  - apply (H2 3%nat (refused a)); reflexivity.
Defined.

End IdentityFacts.

(** ** Further properties of the transcription stream adapter *)

Section StreamFacts.
Import Deepgram.

Lemma settle_frame w :
  connection (stream (settle w)) = connection (stream w)
  ∧ isOpen (stream (settle w)) = isOpen (stream w)
  ∧ forwarded (settle w) = forwarded w
  ∧ closeRequests (settle w) = closeRequests w
  ∧ partials (settle w) = partials w.
Proof. unfold settle. by destruct (resolveFinish (stream w)). Qed.

Lemma settle_all_frame (due : list Z) w :
  let w' := foldl (λ acc _, settle acc) w due in
  connection (stream w') = connection (stream w)
  ∧ isOpen (stream w') = isOpen (stream w)
  ∧ forwarded w' = forwarded w
  ∧ closeRequests w' = closeRequests w
  ∧ partials w' = partials w.
Proof.
  revert w. induction due as [|d due IH]; intros w; simpl; [done|].
  destruct (IH (settle w)) as (-> & -> & -> & -> & ->). apply settle_frame.
Qed.

(** What one event does to the callback log: one call for a segment with
    text, none otherwise. *)
Lemma partials_step e w :
  length (partials (step e w)) =
  (length (partials w) + (if has_text e then 1 else 0))%nat.
Proof.
  destruct e as [ |data| | | |c| | |d]; simpl;
    unfold on_open, on_transcript, on_utterance_end, on_error, on_close, send,
      finish, close; simpl; rewrite ?Nat.add_0_r; try done.
  - destruct (JS.truthy _); simpl; [|lia]. rewrite length_app. simpl. lia.
  - by destruct (settle_frame w) as (_ & _ & _ & _ & ->).
  - by destruct (settle_frame (with_stream (set_isOpen false) w)) as (_ & _ & _ & _ & ->).
  - by destruct (_ && _).
  - by destruct (JS.truthy _).
  - by destruct (connection _).
  - destruct (0 <=? d); [|done]. unfold elapse. simpl.
    by destruct (settle_all_frame (filter (λ dl, dl ≤ now w + d) (timers w)) w)
      as (_ & _ & _ & _ & ->).
Qed.

Lemma partials_run evs w :
  length (partials (run evs w)) =
  (length (partials w) + length (List.filter has_text evs))%nat.
Proof.
  revert w. induction evs as [|e evs IH]; intros w; simpl; [lia|].
  rewrite IH, partials_step. destruct (has_text e); simpl; lia.
Qed.

(** X3.  The text handed to the streaming callback: for a final segment it is
    the whole transcript accumulated so far, the new segment included (the
    single-space join of all final segments with text); for a partial
    segment it is the accumulated transcript, a space and the segment, so
    with nothing accumulated yet it starts with a space.  The callback runs
    once for every segment that carries text and never for one that does
    not. *)
Theorem callback_carries_whole_transcript (t0 : Z) (evs : list Event) (t : string) :
  JS.truthy t = true →
  let w := run evs (create t0) in
  partials (step (final t) w)
    = partials w ++ [(JS.join_space (final_segments evs ++ [t]), true)]
  ∧ partials (step (partial t) w)
    = partials w ++ [(JS.join_space (final_segments evs) +:+ " " +:+ t, false)]
  ∧ length (partials w) = length (List.filter has_text evs).
Proof.
  intros Ht w.
  assert (accumulates w (final_segments evs)) as Hacc.
  { apply (accumulates_run evs (create t0) []). by split. }
  split_and!.
  - destruct (accumulates_step (final t) w _ Hacc) as [H _].
    simpl in H. rewrite Ht in H. rewrite <- H.
    simpl. unfold on_transcript. simpl. by rewrite Ht.
  - destruct Hacc as [H _]. simpl. unfold on_transcript. simpl.
    by rewrite Ht, H.
  - unfold w. by rewrite partials_run.
Qed.

Lemma callback_carries_whole_transcript_witness :
  let w := run [final "hello"; Transcript (mkData None (Some true))] (create 0) in
  partials (step (final "world") w) = [("hello", true); ("hello world", true)]
  ∧ partials (step (partial "wor") (create 0)) = [(" wor", false)].
Proof.
  intros w.
  destruct (callback_carries_whole_transcript 0
              [final "hello"; Transcript (mkData None (Some true))] "world" eq_refl)
    as (H1 & _).
  destruct (callback_carries_whole_transcript 0 [] "wor" eq_refl) as (_ & H2 & _).
  split; [exact H1|exact H2].
Defined.


Lemma connection_step e w :
  connection (stream (step e w)) =
    match e with CallClose => false | _ => connection (stream w) end.
Proof.
  destruct e as [ |data| | | |c| | |d]; simpl;
    unfold on_open, on_transcript, on_utterance_end, on_error, on_close, send,
      finish, close; simpl; try done.
  - by destruct (JS.truthy _).
  - by destruct (settle_frame w) as (-> & _).
  - by destruct (settle_frame (with_stream (set_isOpen false) w)) as (-> & _).
  - by destruct (_ && _).
  - by destruct (JS.truthy _).
  - destruct (connection (stream w)) eqn:E; simpl; [done|by rewrite E].
  - destruct (0 <=? d); [|done]. unfold elapse. simpl.
    by destruct (settle_all_frame (filter (λ dl, dl ≤ now w + d) (timers w)) w)
      as (-> & _).
Qed.






Lemma closeRequests_step e w :
  closeRequests (step e w) =
    match e with
    | CallClose => if connection (stream w) then S (closeRequests w) else closeRequests w
    | _ => closeRequests w
    end.
Proof.
  destruct e as [ |data| | | |c| | |d]; simpl;
    unfold on_open, on_transcript, on_utterance_end, on_error, on_close, send,
      finish, close; simpl; try done.
  - by destruct (JS.truthy _).
  - by destruct (settle_frame w) as (_ & _ & _ & -> & _).
  - by destruct (settle_frame (with_stream (set_isOpen false) w)) as (_ & _ & _ & -> & _).
  - by destruct (_ && _).
  - by destruct (JS.truthy _).
  - by destruct (connection _).
  - destruct (0 <=? d); [|done]. unfold elapse. simpl.
    by destruct (settle_all_frame (filter (λ dl, dl ≤ now w + d) (timers w)) w)
      as (_ & _ & _ & -> & _).
Qed.

Lemma closeRequests_run evs w :
  closeRequests (run evs w) =
    (closeRequests w
     + if connection (stream w) && existsb is_close_call evs then 1 else 0)%nat
  ∧ connection (stream (run evs w))
    = connection (stream w) && negb (existsb is_close_call evs).
Proof.
  revert w. induction evs as [|e evs IH]; intros w; simpl.
  - rewrite andb_false_r, andb_true_r. split; [lia|done].
  - destruct (IH (step e w)) as [-> ->].
    rewrite closeRequests_step, connection_step.
    destruct e; simpl; rewrite ?andb_false_r; try done.
    destruct (connection (stream w)); simpl; split; (lia || done).
Qed.

(** X5.  However often [close()] is called, and whatever else happens to the
    stream, the close request goes to the provider at most once: exactly once
    if [close()] was called at all, and the connection object is held until
    then. *)
Theorem close_request_is_sent_once (t0 : Z) (evs : list Event) :
  closeRequests (run evs (create t0)) = (if existsb is_close_call evs then 1 else 0)%nat
  ∧ connection (stream (run evs (create t0))) = negb (existsb is_close_call evs).
Proof. by destruct (closeRequests_run evs (create t0)) as [-> ->]. Qed.

Lemma resolved_with_accumulated_step e w p :
  resolved_with_accumulated w p → resolved_with_accumulated (step e w) p.
Proof.
  intros (v & suffix & Hr & Hf).
  destruct (transcript_step_extends e w) as [s2 Hs].
  exists v, (suffix +:+ s2). split; [by apply result_step_keep|].
  by rewrite Hs, Hf, append_assoc'.
Qed.

Lemma resolved_with_accumulated_run evs w p :
  resolved_with_accumulated w p → resolved_with_accumulated (run evs w) p.
Proof.
  revert w. induction evs as [|e evs IH]; intros w H; simpl; [done|].
  by apply IH, resolved_with_accumulated_step.
Qed.

Lemma settle_resolves_accumulated w p :
  resolveFinish (stream w) = Some p → promises w !! p = Some None →
  resolved_with_accumulated (settle w) p.
Proof.
  intros Hr Hp. exists (fullTranscript (stream w)), "".
  split; [by apply settle_resolves|].
  by rewrite settle_fullTranscript, append_empty_r.
Qed.

Lemma waiting_step_accumulated e w p due :
  is_finish e = false → waiting w p due →
  resolved_with_accumulated (step e w) p ∨ waiting (step e w) p due.
Proof.
  intros He Hw.
  destruct (waiting_step e w p due He Hw) as [[v Hv]|Hw']; [|by right].
  left. destruct Hw as (Hr & Hp & _).
  destruct e as [ |data| | | |c| | |d]; simpl in *;
    unfold on_open, on_transcript, on_utterance_end, on_error, on_close, send,
      close, result in *; simpl in *.
  - by rewrite Hp in Hv.
  - destruct (JS.truthy _); simpl in Hv; by rewrite Hp in Hv.
  - by apply settle_resolves_accumulated.
  - by rewrite Hp in Hv.
  - by apply (settle_resolves_accumulated (with_stream (set_isOpen false) w)).
  - destruct (_ && _); simpl in Hv; by rewrite Hp in Hv.
  - done.
  - destruct (connection _); simpl in Hv; by rewrite Hp in Hv.
  - destruct (0 <=? d); [|by rewrite Hp in Hv]. unfold elapse in *. simpl in *.
    destruct (filter (λ dl, dl ≤ now w + d) (timers w)) as [|d1 due1] eqn:Edue;
      simpl in Hv; [by rewrite Hp in Hv|].
    exists (fullTranscript (stream w)), "". split.
    + by apply (settle_all_resolves (d1 :: due1)).
    + simpl. rewrite (settle_all_fullTranscript due1), settle_fullTranscript.
      by rewrite append_empty_r.
Qed.

Lemma waiting_run_accumulated evs w p due :
  forallb (λ e, negb (is_finish e)) evs = true → waiting w p due →
  resolved_with_accumulated (run evs w) p ∨ waiting (run evs w) p due.
Proof.
  revert w. induction evs as [|e evs IH]; intros w Hf Hw; simpl in *; [auto|].
  apply andb_prop in Hf as [He Hf]. apply negb_true_iff in He.
  destruct (waiting_step_accumulated e w p due He Hw) as [H|Hw'].
  - left. by apply resolved_with_accumulated_run.
  - by apply IH.
Qed.

(** X6.  A [finish()] during whose wait no other [finish()] is issued on the
    stream is resolved once the fallback delay of 2000 ms has passed, at the
    latest, whatever the provider does or fails to do; and the text it is
    resolved with is text the stream has accumulated: the accumulated
    transcript starts with it. *)
Theorem single_finish_resolves_with_accumulated (w : World) (evs : list Event) :
  forallb (λ e, negb (is_finish e)) evs = true →
  FALLBACK_MS ≤ elapsed evs →
  resolved_with_accumulated (run evs (fst (finish w))) (snd (finish w)).
Proof.
  intros Hf Hel. unfold finish.
  destruct (JS.truthy (fullTranscript (stream w))) eqn:Et; simpl.
  - apply resolved_with_accumulated_run.
    exists (fullTranscript (stream w)), "". unfold result. simpl.
    by rewrite lookup_app_r, Nat.sub_diag, append_empty_r.
  - set (w1 := mkWorld _ _ _ _ _ _ _).
    assert (waiting w1 (length (promises w)) (now w + FALLBACK_MS)) as Hw.
    { split_and!; simpl.
      - done.
      - by rewrite lookup_app_r, Nat.sub_diag.
      - apply elem_of_app. right. by apply list_elem_of_singleton.
      - unfold FALLBACK_MS. lia. }
    destruct (waiting_run_accumulated evs w1 _ _ Hf Hw) as [?|(_ & _ & _ & Hn)];
      [done|].
    rewrite now_run in Hn. simpl in Hn. lia.
Qed.

(** A partial, then silence from the provider: resolved by the timer. *)
Lemma single_finish_resolves_with_accumulated_witness :
  resolved_with_accumulated
    (run [partial "hel"; Elapse 1500; Elapse 500] (fst (finish (create 0)))) 0.
Proof.
  apply (single_finish_resolves_with_accumulated (create 0)
           [partial "hel"; Elapse 1500; Elapse 500]); [reflexivity|].
  vm_compute. discriminate.
Defined.

End StreamFacts.

(** ** Further properties of the session orchestrator *)

Section TurnFacts.
Import Handler.

Lemma slice0_spec n s :
  String.length (JS.slice0 n s) = Nat.min n (String.length s)
  ∧ String.prefix (JS.slice0 n s) s = true
  ∧ ((String.length s ≤ n)%nat → JS.slice0 n s = s).
Proof.
  unfold JS.slice0. revert n. induction s as [|c s IH]; intros [|n]; simpl;
    split_and!; try done; try lia.
  - destruct (IH n) as (-> & _). done.
  - destruct (IH n) as (_ & -> & _). by destruct (Ascii.ascii_dec c c).
  - intros Hl. destruct (IH n) as (_ & _ & H). rewrite H; [done|lia].
Qed.

(** X7.  A turn in which every stage succeeds.  From an activation awaiting
    the transcript: a transcript with content, a parsed response whose
    summary has content, and synthesized audio make the handler send, in this
    order, the final transcript, the processing_llm status, the response, the
    processing_tts status, the audio (always as ["audio/mpeg"]) and the
    ready_to_play status.  The stream is closed once and dropped from the
    session, the two stages are called once each, with the transcript and
    with the summary, and the activation returns. *)
Theorem successful_turn
    (w : World) (k s : nat) (finalText audio : string) (r : LLMResponse) :
  tasks w !! k = Some (AwaitStt s) →
  JS.blank finalText = false →
  JS.blank (summary r) = false →
  let w' := run [SttSettles k (Resolved finalText);
                 LlmReplies k (Resolved (Some r));
                 TtsReplies k (Resolved audio)] w in
  sent w' = sent w ++ delivered w
              [final_transcript finalText; status processing_llm;
               llm_response r; status processing_tts;
               tts_audio audio "audio/mpeg"; status ready_to_play]
  ∧ stage_calls w' = stage_calls w ++ [GenerateLLMResponse finalText;
                                       GenerateTTS (summary r)]
  ∧ stt_calls w' = stt_calls w ++ [(s, SttClose)]
  ∧ sttStream (session w') = None
  ∧ tasks w' = <[k := Returned]> (tasks w).
Proof.
  intros Hk Hb Hs.
  pose proof (lookup_lt_Some _ _ _ Hk) as Hlt.
  destruct w as [ss o sn tm str sc sg tk rg ck]. simpl in *.
  rewrite Hk. unfold resume_stt. rewrite (trim_truthy _ Hb).
  destruct o; simpl; rewrite list_lookup_insert_eq by done;
    unfold generateLLMResponse; rewrite (trim_truthy _ Hb); simpl;
    rewrite list_lookup_insert_eq by (by rewrite length_insert);
    unfold generateTTS, formatForTTS; simpl; rewrite (trim_truthy _ Hs); simpl;
    rewrite !list_insert_insert_eq, <- ?app_assoc, ?app_nil_r; done.
Qed.

Lemma successful_turn_witness :
  let w := run [Message (audio_chunk "AAAA"); Message stop_recording] (connect 0) in
  let w' := run [SttSettles 0 (Resolved "hello");
                 LlmReplies 0 (Resolved (Some sample_response));
                 TtsReplies 0 (Resolved "SUQz")] w in
  sent w' = [status idle; status listening; status processing_stt;
             final_transcript "hello"; status processing_llm;
             llm_response sample_response; status processing_tts;
             tts_audio "SUQz" "audio/mpeg"; status ready_to_play].
Proof.
  intros w w'.
  destruct (successful_turn w 0 0 "hello" "SUQz" sample_response) as (H & _);
    [reflexivity|reflexivity|reflexivity|].
  exact H.
Defined.

(** X8.  The two failures the services raise themselves are reported under
    their own stage.  A completion without a parsed message ends the turn
    with LLM_ERROR and no call to speech synthesis.  A response whose summary
    is blank is still sent to the client, after which the turn ends with
    TTS_ERROR whatever the speech provider would have answered, and no audio
    is sent. *)
Theorem service_failures_keep_their_stage
    (w : World) (k : nat) (finalText : string) :
  tasks w !! k = Some (AwaitLlm finalText) →
  JS.blank finalText = false →
  (let w' := step (LlmReplies k (Resolved None)) w in
   sent w' = sent w ++ delivered w [error "AI response generation failed" LLM_ERROR;
                                    status idle]
   ∧ stage_calls w' = stage_calls w
   ∧ tasks w' = <[k := Returned]> (tasks w))
  ∧ (∀ r ttsReply, JS.blank (summary r) = true →
       let w' := run [LlmReplies k (Resolved (Some r)); TtsReplies k ttsReply] w in
       sent w' = sent w ++ delivered w [llm_response r; status processing_tts;
                                        error "Text-to-speech failed" TTS_ERROR;
                                        status idle]
       ∧ tasks w' = <[k := Returned]> (tasks w)).
Proof.
  intros Hk Hb.
  pose proof (lookup_lt_Some _ _ _ Hk) as Hlt.
  destruct w as [ss o sn tm str sc sg tk rg ck]. simpl in *. split.
  - rewrite Hk. unfold generateLLMResponse. rewrite (trim_truthy _ Hb).
    destruct o; simpl; rewrite <- ?app_assoc, ?app_nil_r; done.
  - intros r ttsReply Hs. rewrite Hk. unfold generateLLMResponse.
    rewrite (trim_truthy _ Hb). apply trim_empty_iff_blank in Hs.
    destruct o; simpl; rewrite list_lookup_insert_eq by done;
      unfold generateTTS, formatForTTS; rewrite Hs; simpl;
      rewrite !list_insert_insert_eq, <- ?app_assoc, ?app_nil_r; done.
Qed.

Lemma service_failures_keep_their_stage_witness :
  let r := mkResponse "  " ["a point"] "next" in
  sent (step (LlmReplies 0 (Resolved None)) generating)
    = sent generating ++ [error "AI response generation failed" LLM_ERROR; status idle]
  ∧ sent (run [LlmReplies 0 (Resolved (Some r)); TtsReplies 0 (Resolved "SUQz")]
            generating)
    = sent generating ++ [llm_response r; status processing_tts;
                          error "Text-to-speech failed" TTS_ERROR; status idle].
Proof.
  intros r.
  destruct (service_failures_keep_their_stage generating 0 "hello")
    as ((H1 & _) & H2); [reflexivity|reflexivity|].
  split; [exact H1|].
  destruct (H2 r (Resolved "SUQz")) as (H & _); [reflexivity|exact H].
Defined.

(** X9.  Oversized input is cut, not refused: what [generateLLMResponse]
    sends to the provider is the first 2000 characters of the transcript and
    what [generateTTS] sends is the first 4000 characters of its text; input
    within the bound is sent unchanged, and the length of the input never
    makes the call fail. *)
Theorem requests_are_truncated (text : string) :
  (String.length (llm_request text) = Nat.min MAX_INPUT_LENGTH (String.length text)
   ∧ String.prefix (llm_request text) text = true
   ∧ ((String.length text ≤ MAX_INPUT_LENGTH)%nat → llm_request text = text))
  ∧ (String.length (tts_request text) = Nat.min MAX_TTS_LENGTH (String.length text)
     ∧ String.prefix (tts_request text) text = true
     ∧ ((String.length text ≤ MAX_TTS_LENGTH)%nat → tts_request text = text))
  ∧ (JS.blank text = false →
       (∀ parsed, generateLLMResponse text (Resolved (Some parsed)) = Resolved parsed)
       ∧ (∀ audio, generateTTS text (Resolved audio) = Resolved (audio, "audio/mpeg"))).
Proof.
  split_and!; try apply slice0_spec.
  intros Hb. unfold generateLLMResponse, generateTTS.
  by rewrite (trim_truthy _ Hb).
Qed.

Lemma requests_are_truncated_witness :
  llm_request "short" = "short"
  ∧ generateTTS "short" (Resolved "SUQz") = Resolved ("SUQz", "audio/mpeg").
Proof.
  destruct (requests_are_truncated "short") as ((_ & _ & H1) & _ & H2).
  split.
  - apply H1. vm_compute. lia.
  - destruct H2 as (_ & H); [reflexivity|]. apply H.
Defined.

End TurnFacts.

Section TeardownFacts.
Import Handler.

(** Split on every test the goal still branches on. *)
Ltac crunch :=
  repeat (simpl;
          match goal with
          | |- context [match ?x with _ => _ end] => destruct x eqn:?
          end);
  simpl.

Lemma closed_socket_step e w :
  ws_open w = false →
  sent (step e w) = sent w ∧ ws_open (step e w) = false.
Proof.
  intros Ho. destruct w as [[stt st la c hv hm] o sn tm str sc sg tk rg ck].
  simpl in Ho. subst o.
  destruct e as [[data| | |]| |text isFinal|h|k r|k r|k r| | | |d];
    unfold step, handleMessage, onPartial, vad_callback, maxDuration_callback,
      finishRecording, resume_stt, resume_llm, resume_tts, catch_block,
      cleanupSession, clear_timers, resetVadTimeout, sendStatus, sendError, send;
    crunch; done.
Qed.

(** X10.  Nothing is written to a socket that is not open, and a socket that
    has left the open state never returns to it: from then on the output of
    the connection stays as it is, whatever messages, timers or provider
    results still arrive. *)
Theorem closed_socket_gets_nothing (w : World) (evs : list Event) :
  ws_open w = false →
  sent (run evs w) = sent w ∧ ws_open (run evs w) = false.
Proof.
  revert w. induction evs as [|e evs IH]; intros w Ho; simpl; [done|].
  destruct (closed_socket_step e w Ho) as [Hs Ho'].
  destruct (IH _ Ho') as [-> ->]. done.
Qed.

(** The socket closes while the response is awaited. *)
Lemma closed_socket_gets_nothing_witness :
  sent (run [LlmReplies 0 (Resolved (Some sample_response));
             TtsReplies 0 (Resolved "SUQz")] (step WsClose generating))
  = sent generating.
Proof.
  destruct (closed_socket_gets_nothing (step WsClose generating)
              [LlmReplies 0 (Resolved (Some sample_response));
               TtsReplies 0 (Resolved "SUQz")]) as [H _]; [reflexivity|].
  exact H.
Defined.

(** X11.  Teardown is idempotent: running [cleanupSession] a second time
    changes nothing, so the close handler running after the error handler
    (or after a cancel) closes no stream twice and clears no timer twice.
    After it the session holds no stream and no timer and is cancelled, and
    the stream it held has been closed exactly once by it. *)
Theorem cleanup_is_idempotent (w : World) :
  cleanupSession (cleanupSession w) = cleanupSession w
  ∧ Idle (session (cleanupSession w))
  ∧ isCancelled (session (cleanupSession w)) = true
  ∧ stt_calls (cleanupSession w)
    = stt_calls w ++ match sttStream (session w) with
                     | Some s => [(s, SttClose)]
                     | None => []
                     end
  ∧ sent (cleanupSession w) = sent w.
Proof.
  destruct w as [[[s|] st la c [hv|] [hm|]] o sn tm str sc sg tk rg ck];
    unfold Idle; simpl; rewrite ?app_nil_r; done.
Qed.

(** X12.  Finalization asked for while the session holds no stream starts
    nothing.  A stop request is answered with the idle status alone: no
    activation is created, no stream or stage is called.  The silence timer
    firing in that state does nothing at all. *)
Theorem finalize_without_stream_starts_nothing (w : World) :
  sttStream (session w) = None →
  (let w' := step (Message stop_recording) w in
   sent w' = sent w ++ delivered w [status idle]
   ∧ tasks w' = tasks w
   ∧ stt_calls w' = stt_calls w
   ∧ stage_calls w' = stage_calls w
   ∧ Idle (session w'))
  ∧ (∀ h, timers w !! h = Some (VadTimer, Pending) →
       let w' := step (TimerFires h) w in
       sent w' = sent w ∧ tasks w' = tasks w ∧ session w' = session w
       ∧ stt_calls w' = stt_calls w).
Proof.
  intros Hs. destruct w as [[stt st la c hv hm] o sn tm str sc sg tk rg ck].
  simpl in Hs. subst stt. split.
  - destruct hv, hm, o; unfold Idle, delivered; simpl; rewrite ?app_nil_r; done.
  - intros h Hh. simpl in *. rewrite Hh. unfold vad_callback. simpl.
    by rewrite andb_false_r.
Qed.

Lemma finalize_without_stream_starts_nothing_witness :
  let w := connect 0 in
  sent (step (Message stop_recording) w) = [status idle; status idle].
Proof.
  intros w.
  destruct (finalize_without_stream_starts_nothing w) as ((H & _) & _);
    [reflexivity|exact H].
Defined.

End TeardownFacts.

Section RecordingFacts.
Import Handler.

Lemma length_clear_at h ts : length (clear_at h ts) = length ts.
Proof.
  unfold clear_at. by destruct (ts !! h) as [[? [ | | ]]|]; rewrite ?length_insert.
Qed.

Lemma clear_at_lookup_ne h h' ts : h ≠ h' → clear_at h ts !! h' = ts !! h'.
Proof.
  intros Hne. unfold clear_at.
  by destruct (ts !! h) as [[? [ | | ]]|]; rewrite ?list_lookup_insert_ne.
Qed.

(** X13.  What an audio chunk does on a session that is not cancelled.  With
    no stream held it opens the recording: the listening status is sent, one
    stream is created and kept, the duration-cap timer and the silence timer
    are armed, and the chunk goes to the new stream.  With a stream held it
    only continues the recording: nothing is sent to the client, no stream
    is created, the chunk goes to the held stream, the duration-cap timer
    and the start time are left alone, and the silence timer is replaced by a
    fresh one, the old one being cleared.  Either way the time of last
    activity becomes the current time. *)
Theorem audio_chunk_opens_or_continues (w : World) (data : string) :
  isCancelled (session w) = false →
  let w' := step (Message (audio_chunk data)) w in
  let n := length (timers w) in
  (sttStream (session w) = None →
     sent w' = sent w ++ delivered w [status listening]
     ∧ streams w' = S (streams w)
     ∧ sttStream (session w') = Some (streams w)
     ∧ stt_calls w' = stt_calls w ++ [(streams w, SttSend data)]
     ∧ maxDurationTimeout (session w') = Some n
     ∧ vadTimeout (session w') = Some (S n)
     ∧ startTime (session w') = clock w
     ∧ timers w' !! S n = Some (VadTimer, Pending)
     ∧ ((∀ h, vadTimeout (session w) = Some h → (h < n)%nat) →
          timers w' !! n = Some (MaxDurationTimer, Pending)))
  ∧ (∀ s, sttStream (session w) = Some s →
     sent w' = sent w
     ∧ streams w' = streams w
     ∧ sttStream (session w') = Some s
     ∧ stt_calls w' = stt_calls w ++ [(s, SttSend data)]
     ∧ maxDurationTimeout (session w') = maxDurationTimeout (session w)
     ∧ startTime (session w') = startTime (session w)
     ∧ vadTimeout (session w') = Some n
     ∧ timers w' = match vadTimeout (session w) with
                   | Some h => clear_at h (timers w)
                   | None => timers w
                   end ++ [(VadTimer, Pending)])
  ∧ lastActivityTime (session w') = clock w.
Proof.
  intros Hc w' n.
  destruct w as [[stt st la c hv hm] o sn tm str sc sg tk rg ck].
  simpl in Hc. subst c. subst w' n. split_and!.
  - intros Hs. simpl in Hs. subst stt.
    assert (∀ (ts : list (TimerKind * TimerState)) x, length (ts ++ [x]) = S (length ts))
      as Hlen by (intros; rewrite length_app; simpl; lia).
    destruct hv as [h|], o; unfold delivered; simpl;
      rewrite ?app_nil_r; split_and!; try done;
      rewrite ?length_clear_at, ?Hlen; try done;
      try (apply list_lookup_middle; by rewrite ?length_clear_at, Hlen);
      intros Hv; try specialize (Hv h eq_refl);
      (rewrite lookup_app_l by (rewrite ?length_clear_at, Hlen; lia));
      rewrite ?clear_at_lookup_ne by lia; by apply list_lookup_middle.
  - intros s Hs. simpl in Hs. subst stt.
    destruct hv as [h|]; simpl; split_and!; try done.
    by rewrite length_clear_at.
  - by destruct stt, hv, o.
Qed.

Lemma audio_chunk_opens_or_continues_witness :
  let w := connect 0 in
  let w1 := step (Message (audio_chunk "AAAA")) w in
  let w2 := step (Message (audio_chunk "BBBB")) w1 in
  timers w1 = [(MaxDurationTimer, Pending); (VadTimer, Pending)]
  ∧ timers w2 = [(MaxDurationTimer, Pending); (VadTimer, Cleared); (VadTimer, Pending)]
  ∧ sent w2 = [status idle; status listening].
Proof.
  intros w w1 w2.
  destruct (audio_chunk_opens_or_continues w "AAAA" eq_refl) as (H1 & _).
  destruct (H1 eq_refl) as (_ & _ & _ & _ & _ & _ & _ & _ & Hmax).
  pose proof (Hmax ltac:(intros h; discriminate)) as Hmax'.
  destruct (audio_chunk_opens_or_continues w1 "BBBB" eq_refl) as (_ & H2 & _).
  destruct (H2 0%nat eq_refl) as (Hs & _ & _ & _ & _ & _ & _ & Ht).
  split_and!; [reflexivity|exact Ht|exact Hs].
Defined.

(** X14.  Over a whole connection, whatever the order of messages, timers
    and provider results: [generateLLMResponse] is only ever called with a
    transcript that has content, so the call does not fail on its own
    "Empty input" test; and every text [generateTTS] is called with is the summary of a
    response that an earlier reply of the response provider resolved to. *)
Theorem stage_calls_carry_checked_input (t : Z) (evs : list Event) (c : StageCall) :
  c ∈ stage_calls (run evs (connect t)) →
  match c with
  | GenerateLLMResponse input =>
      JS.blank input = false
      ∧ ∀ parsed, generateLLMResponse input (Resolved (Some parsed)) = Resolved parsed
  | GenerateTTS text =>
      ∃ k reply finalText r,
        LlmReplies k reply ∈ evs
        ∧ generateLLMResponse finalText reply = Resolved r
        ∧ text = summary r
  end.
Proof.
  intros Hc. destruct c as [input|text].
  - pose proof (llm_input_never_blank t evs input Hc) as Hb. split; [done|].
    intros parsed. unfold generateLLMResponse. by rewrite (trim_truthy _ Hb).
  - by apply (tts_text_is_a_summary t).
Qed.

Lemma stage_calls_carry_checked_input_witness :
  JS.blank "hello" = false
  ∧ ∀ parsed, generateLLMResponse "hello" (Resolved (Some parsed)) = Resolved parsed.
Proof.
  apply (stage_calls_carry_checked_input 0
           [Message (audio_chunk "AAAA"); Message stop_recording;
            SttSettles 0 (Resolved "hello")] (GenerateLLMResponse "hello")).
  vm_compute. apply list_elem_of_here.
Defined.

End RecordingFacts.

Section CancelledFacts.
Import Handler.

Ltac crunch_all :=
  repeat (simpl;
          match goal with
          | |- context [match ?x with _ => _ end] => destruct x eqn:?
          end);
  simpl.

Lemma cancelled_step e w :
  Cancelled w →
  Cancelled (step e w)
  ∧ streams (step e w) = streams w
  ∧ length (timers (step e w)) = length (timers w)
  ∧ List.filter is_recording_output (sent (step e w))
    = List.filter is_recording_output (sent w)
  ∧ List.filter (λ c, negb (is_stt_close c)) (stt_calls (step e w))
    = List.filter (λ c, negb (is_stt_close c)) (stt_calls w).
Proof.
  intros [Hc Hs]. destruct w as [[stt st la c hv hm] o sn tm str sc sg tk rg ck].
  simpl in Hc, Hs. subst c stt.
  destruct e as [[data| | |]| |text isFinal|h|k r|k r|k r| | | |d];
    unfold Cancelled, step, handleMessage, onPartial, vad_callback,
      maxDuration_callback, finishRecording, resume_stt, resume_llm, resume_tts,
      catch_block, classify, cleanupSession, clear_timers, resetVadTimeout,
      sendStatus, sendError, send;
    crunch_all;
    rewrite ?length_clear_at, ?length_insert, ?List.filter_app; simpl;
    rewrite ?app_nil_r; done.
Qed.

(** X15.  A cancelled session stays cancelled for the rest of the
    connection, since nothing resets the flag.  From the state a cancel
    leaves, whatever arrives afterwards, no stream is ever created again, no
    timer is armed, no audio reaches a stream and no [finish()] is called
    (the only stream calls left are closes by activations still running),
    and the client gets no partial transcript, no listening or
    processing_stt status and no duration-cap notice.  Later audio chunks
    are silently ignored: the connection cannot record again. *)
Theorem cancelled_session_never_records_again (w : World) (evs : list Event) :
  Cancelled w →
  let w' := run evs w in
  Cancelled w'
  ∧ streams w' = streams w
  ∧ length (timers w') = length (timers w)
  ∧ List.filter is_recording_output (sent w')
    = List.filter is_recording_output (sent w)
  ∧ List.filter (λ c, negb (is_stt_close c)) (stt_calls w')
    = List.filter (λ c, negb (is_stt_close c)) (stt_calls w).
Proof.
  revert w. induction evs as [|e evs IH]; intros w Hw; simpl; [done|].
  destruct (cancelled_step e w Hw) as (Hw' & E1 & E2 & E3 & E4).
  destruct (IH _ Hw') as (? & F1 & F2 & F3 & F4).
  split_and!; [done|congruence..].
Qed.

Lemma cancelled_session_never_records_again_witness :
  let w := step (Message cancel)
             (run [Message (audio_chunk "AAAA"); OnPartial " hel" false] (connect 0)) in
  let w' := run [Message (audio_chunk "BBBB"); OnPartial " hello" false;
                 Message stop_recording] w in
  streams w' = 1%nat
  ∧ List.filter is_recording_output (sent w')
    = [status listening; partial_transcript " hel" false].
Proof.
  intros w w'.
  destruct (cancelled_session_never_records_again w
              [Message (audio_chunk "BBBB"); OnPartial " hello" false;
               Message stop_recording]) as (_ & H1 & _ & H2 & _);
    [split; reflexivity|].
  split; [exact H1|exact H2].
Defined.

End CancelledFacts.

Section SilenceTimerFacts.
Import Handler.

Ltac crunch_goal :=
  repeat (simpl;
          match goal with
          | |- context [match ?x with _ => _ end] => destruct x eqn:?
          end);
  simpl.

Lemma clear_at_pending h h' ts k :
  clear_at h ts !! h' = Some (k, Pending) → ts !! h' = Some (k, Pending) ∧ h' ≠ h.
Proof.
  intros H. destruct (decide (h = h')) as [->|Hne].
  - by apply clear_at_not_pending in H.
  - rewrite clear_at_lookup_ne in H by done. auto.
Qed.

Lemma vad_owned_clear ts v h : vad_owned ts v → vad_owned (clear_at h ts) v.
Proof. intros H h' [Hh' _]%clear_at_pending. by apply H. Qed.

Lemma vad_owned_clear_own ts h : vad_owned ts (Some h) → vad_owned (clear_at h ts) None.
Proof.
  intros H h' [Hh' Hne]%clear_at_pending. apply H in Hh'. congruence.
Qed.

Lemma vad_owned_fire ts v h k : vad_owned ts v → vad_owned (<[h := (k, Fired)]> ts) v.
Proof.
  intros H h' Hh'. apply H. destruct (decide (h = h')) as [->|Hne].
  - apply list_lookup_insert_Some in Hh' as [(_ & [=] & _)|[? ?]]; done.
  - by rewrite list_lookup_insert_ne in Hh'.
Qed.

Lemma vad_owned_snoc_max ts v :
  vad_owned ts v → vad_owned (ts ++ [(MaxDurationTimer, Pending)]) v.
Proof.
  intros H h' Hh'. apply H.
  apply lookup_app_Some in Hh' as [?|[_ Hh']]; [done|].
  by destruct (h' - length ts)%nat as [|[|?]].
Qed.

Lemma vad_owned_snoc_vad ts :
  vad_owned ts None → vad_owned (ts ++ [(VadTimer, Pending)]) (Some (length ts)).
Proof.
  intros H h' Hh'.
  apply lookup_app_Some in Hh' as [Hh'|[Hge Hh']]; [by apply H in Hh'|].
  destruct (h' - length ts)%nat as [|[|?]] eqn:E; [|done..].
  f_equal. lia.
Qed.

Lemma vad_owned_step e w :
  vad_owned (timers w) (vadTimeout (session w)) →
  vad_owned (timers (step e w)) (vadTimeout (session (step e w))).
Proof.
  intros H.
  destruct w as [[[s|] st la [|] [hv|] [hm|]] [|] sn tm str sc sg tk rg ck];
    simpl in H;
  destruct e as [[data| | |]| |text isFinal|h|k r|k r|k r| | | |d];
    unfold step, handleMessage, onPartial, vad_callback,
      maxDuration_callback, finishRecording, resume_stt, resume_llm, resume_tts,
      catch_block, cleanupSession, clear_timers, resetVadTimeout,
      sendStatus, sendError, send;
    crunch_goal; subst;
    eauto 8 using vad_owned_clear, vad_owned_clear_own, vad_owned_fire,
      vad_owned_snoc_max, vad_owned_snoc_vad.
Qed.

Lemma vad_owned_run evs w :
  vad_owned (timers w) (vadTimeout (session w)) →
  vad_owned (timers (run evs w)) (vadTimeout (session (run evs w))).
Proof.
  revert w. induction evs as [|e evs IH]; intros w H; simpl; [done|].
  by apply IH, vad_owned_step.
Qed.

(** X16.  At every moment of a connection at most one silence timer can
    still fire, and it is the one whose handle the session holds: every
    other silence timer ever armed has fired or was cleared before its
    successor was armed. *)
Theorem silence_timer_is_unique (t : Z) (evs : list Event) (h1 h2 : nat) :
  let w := run evs (connect t) in
  timers w !! h1 = Some (VadTimer, Pending) →
  timers w !! h2 = Some (VadTimer, Pending) →
  h1 = h2 ∧ vadTimeout (session w) = Some h1.
Proof.
  intros w H1 H2.
  assert (vad_owned (timers w) (vadTimeout (session w))) as Hv.
  { apply vad_owned_run. intros h Hh. by destruct h. }
  pose proof (Hv _ H1) as E1. pose proof (Hv _ H2) as E2.
  split; [congruence|done].
Qed.

Lemma silence_timer_is_unique_witness :
  let w := run [Message (audio_chunk "AAAA"); Message (audio_chunk "BBBB");
                OnPartial " hel" false] (connect 0) in
  timers w = [(MaxDurationTimer, Pending); (VadTimer, Cleared);
              (VadTimer, Cleared); (VadTimer, Pending)]
  ∧ vadTimeout (session w) = Some 3%nat.
Proof.
  intros w. split; [reflexivity|].
  apply (silence_timer_is_unique 0
           [Message (audio_chunk "AAAA"); Message (audio_chunk "BBBB");
            OnPartial " hel" false] 3 3); reflexivity.
Defined.

End SilenceTimerFacts.

Section OutputOrderFacts.
Import Handler.

Ltac crunch_cases :=
  repeat (simpl;
          match goal with
          | |- context [match ?x with _ => _ end] => destruct x eqn:?
          end);
  simpl.

Lemma count_if_app {A} (f : A → bool) l l' :
  count_if f (l ++ l') = (count_if f l + count_if f l')%nat.
Proof. unfold count_if. by rewrite List.filter_app, length_app. Qed.

Lemma count_if_insert {A} (f : A → bool) (l : list A) k x y :
  l !! k = Some x →
  (count_if f (<[k := y]> l) + (if f x then 1 else 0)
   = count_if f l + (if f y then 1 else 0))%nat.
Proof.
  revert k. induction l as [|a l IH]; intros [|k] H; simplify_eq/=.
  - unfold count_if. simpl. destruct (f x), (f y); simpl; lia.
  - specialize (IH _ H). unfold count_if in *. simpl.
    destruct (f a); simpl; lia.
Qed.

Lemma count_if_singleton {A} (f : A → bool) x :
  count_if f [x] = if f x then 1%nat else 0%nat.
Proof. unfold count_if. simpl. by destruct (f x). Qed.

(** Record what replacing a task does to the two task counts. *)
Ltac note_inserts :=
  repeat match goal with
         | H : ?l !! ?k = Some ?x |- context [count_if ?f (<[?k := ?y]> ?l)] =>
             lazymatch goal with
             | _ : (count_if f (<[k := y]> l) + _ = _)%nat |- _ => fail
             | _ => pose proof (count_if_insert f l k x y H)
             end
         end.

Lemma nested_outputs_step e w : nested_outputs w → nested_outputs (step e w).
Proof.
  intros [[H1 H2] H3].
  destruct w as [[stt st la c hv hm] [|] sn tm str sc sg tk rg ck];
    simpl in *; try specialize (H3 eq_refl) as [H3 H4];
    destruct e as [[data| | |]| |text isFinal|h|k r|k r|k r| | | |d];
    unfold nested_outputs, step, handleMessage, onPartial, vad_callback,
      maxDuration_callback, finishRecording, resume_stt, resume_llm, resume_tts,
      catch_block, cleanupSession, clear_timers, resetVadTimeout,
      sendStatus, sendError, send;
    crunch_cases; rewrite ?count_if_app, ?count_if_singleton; note_inserts;
    simpl in *;
    (split; [|try (intros ?; try discriminate)]); lia.
Qed.

Lemma nested_outputs_run evs w : nested_outputs w → nested_outputs (run evs w).
Proof.
  revert w. induction evs as [|e evs IH]; intros w H; simpl; [done|].
  by apply IH, nested_outputs_step.
Qed.

(** X17.  Whatever the order of messages, timers and provider results, and
    however many activations overlap, the client is never sent more
    responses than final transcripts, nor more audio than responses: every
    response sent was preceded by the sending of its transcript, every audio
    by the sending of its response. *)
Theorem outputs_are_nested (t : Z) (evs : list Event) :
  let w := run evs (connect t) in
  (count_if is_tts_audio (sent w) ≤ count_if is_llm_response (sent w))%nat
  ∧ (count_if is_llm_response (sent w) ≤ count_if is_final_transcript (sent w))%nat.
Proof.
  intros w. assert (nested_outputs w) as [H _]; [|done].
  apply nested_outputs_run. unfold nested_outputs, count_if. simpl. lia.
Qed.

End OutputOrderFacts.

(** ** The browser side *)

Section RecorderFacts.
Import Recorder.
Context {A : Type}.

Lemma detections_app (l l' : list (Output A)) :
  detections (l ++ l') = (detections l + detections l')%nat.
Proof. induction l as [|[s|] l IH]; simpl; [done|done|by rewrite IH]. Qed.

Lemma sent_samples_app (l l' : list (Output A)) :
  sent_samples (l ++ l') = sent_samples l ++ sent_samples l'.
Proof.
  induction l as [|[s|] l IH]; simpl; [done| |done]. by rewrite IH, app_assoc.
Qed.

Lemma latched_step (e : Callback A) (p : Processor A) :
  latched p → latched (onaudioprocess e p).
Proof.
  unfold latched, onaudioprocess. intros H.
  destruct (isSilent e), (hasSpoken p), (silenceTriggered p) eqn:Et,
    (silenceStartTime p) as [t0|]; simpl;
    try destruct (SILENCE_DURATION_MS <=? tSilence e - t0);
    destruct (CHUNK_INTERVAL_MS <=? _); simpl;
    rewrite ?detections_app, ?Et; simpl; lia.
Qed.

Lemma latched_run (es : list (Callback A)) (p : Processor A) :
  latched p → latched (run es p).
Proof.
  revert p. induction es as [|e es IH]; intros p H; simpl; [done|].
  by apply IH, latched_step.
Qed.

Lemma unspoken_step (e : Callback A) (p : Processor A) :
  isSilent e = true → hasSpoken p = false →
  hasSpoken (onaudioprocess e p) = false
  ∧ detections (outputs (onaudioprocess e p)) = detections (outputs p).
Proof.
  unfold onaudioprocess. intros -> ->. simpl.
  destruct (CHUNK_INTERVAL_MS <=? _); simpl; rewrite ?detections_app; simpl;
    split; (done || lia).
Qed.

Lemma unspoken_run (es : list (Callback A)) (p : Processor A) :
  forallb isSilent es = true → hasSpoken p = false →
  detections (outputs (run es p)) = detections (outputs p).
Proof.
  revert p. induction es as [|e es IH]; intros p Hf Hp; simpl in *; [done|].
  apply andb_prop in Hf as [He Hf].
  destruct (unspoken_step e p He Hp) as [Hp' <-]. by apply IH.
Qed.

(** X18.  During one recording the silence callback is called at most once,
    however long the silence lasts or often it recurs.  It is never called if
    no frame of the recording was loud.  A frame triggers it only if it is
    silent, a loud frame came before, and the clock reads at least 2500 ms
    more than at the silent frame that started the current silence. *)
Theorem silence_is_detected_at_most_once (t : Z) (es : list (Callback A)) :
  let p := run es (start t) in
  (detections (outputs p) ≤ 1)%nat
  ∧ (silenceTriggered p = true ↔ detections (outputs p) = 1%nat)
  ∧ (forallb isSilent es = true → detections (outputs p) = 0%nat)
  ∧ (∀ (e : Callback A) (q : Processor A),
       detections (outputs (onaudioprocess e q)) ≠ detections (outputs q) →
       isSilent e = true ∧ hasSpoken q = true ∧ silenceTriggered q = false
       ∧ ∃ t0, silenceStartTime q = Some t0 ∧ SILENCE_DURATION_MS ≤ tSilence e - t0).
Proof.
  intros p.
  assert (latched p) as Hl by by apply latched_run.
  unfold latched in Hl. split_and!.
  - rewrite Hl. destruct (silenceTriggered p); lia.
  - rewrite Hl. by destruct (silenceTriggered p).
  - intros Hf. unfold p. by rewrite unspoken_run.
  - intros e q. unfold onaudioprocess.
    destruct (isSilent e), (hasSpoken q), (silenceTriggered q),
      (silenceStartTime q) as [t0|]; simpl;
      try destruct (SILENCE_DURATION_MS <=? tSilence e - t0) eqn:E;
      destruct (CHUNK_INTERVAL_MS <=? _); simpl;
      rewrite ?detections_app; simpl; rewrite ?Nat.add_0_r; try done.
    all: intros _; split_and!; try done; exists t0; split; [done|];
      by apply Z.leb_le.
Qed.

(** X19.  No captured sample is lost, repeated or reordered on the way to the
    chunk callback: at every moment the samples handed over so far followed
    by those still buffered are exactly the samples captured so far.  A chunk
    is handed over only when at least 250 ms have passed since the last one,
    it holds everything buffered, and the buffer is empty afterwards. *)
Theorem captured_audio_is_conserved (t : Z) (es : list (Callback A)) :
  let p := run es (start t) in
  sent_samples (outputs p) ++ concat (audioBuffer p) = captured es
  ∧ (∀ (e : Callback A) (q : Processor A),
       let q' := onaudioprocess e q in
       if CHUNK_INTERVAL_MS <=? tNow e - lastSendTime q
       then audioBuffer q' = [] ∧ lastSendTime q' = tNow e
            ∧ sent_samples (outputs q')
              = sent_samples (outputs q) ++ concat (audioBuffer q) ++ inputData e
       else audioBuffer q' = audioBuffer q ++ [inputData e]
            ∧ lastSendTime q' = lastSendTime q
            ∧ sent_samples (outputs q') = sent_samples (outputs q)).
Proof.
  intros p.
  assert (∀ (e : Callback A) (q : Processor A),
            let q' := onaudioprocess e q in
            if CHUNK_INTERVAL_MS <=? tNow e - lastSendTime q
            then audioBuffer q' = [] ∧ lastSendTime q' = tNow e
                 ∧ sent_samples (outputs q')
                   = sent_samples (outputs q) ++ concat (audioBuffer q) ++ inputData e
            else audioBuffer q' = audioBuffer q ++ [inputData e]
                 ∧ lastSendTime q' = lastSendTime q
                 ∧ sent_samples (outputs q') = sent_samples (outputs q)) as Hstep.
  { intros e q. unfold onaudioprocess.
    destruct (isSilent e), (hasSpoken q), (silenceTriggered q),
      (silenceStartTime q) as [t0|]; simpl;
      try destruct (SILENCE_DURATION_MS <=? tSilence e - t0);
      destruct (CHUNK_INTERVAL_MS <=? _); simpl;
      rewrite ?sent_samples_app, ?concat_app; simpl; rewrite ?app_nil_r; done. }
  split; [|exact Hstep].
  assert (∀ (l : list (Callback A)) (q : Processor A),
            sent_samples (outputs (run l q)) ++ concat (audioBuffer (run l q))
            = sent_samples (outputs q) ++ concat (audioBuffer q) ++ captured l)
    as Hrun.
  { clear p. intros l. induction l as [|e l IH]; intros q; simpl.
    - unfold captured. simpl. by rewrite app_nil_r.
    - rewrite IH. pose proof (Hstep e q) as H. simpl in H.
      unfold captured. simpl.
      destruct (CHUNK_INTERVAL_MS <=? _); destruct H as (-> & _ & ->); simpl;
        rewrite ?concat_app; simpl; rewrite ?app_nil_r, <- ?app_assoc; done. }
  unfold p. by rewrite Hrun.
Qed.

End RecorderFacts.

Section RecorderScenarios.
Import Recorder.

(** A recording in which nobody speaks: silence is never reported. *)
Lemma silence_is_detected_at_most_once_witness :
  let es := [mkCallback [0; 0] true 0 100; mkCallback [0] true 3000 3000;
             mkCallback [0] true 9000 9000] in
  detections (outputs (run es (start 0))) = 0%nat.
Proof.
  intros es.
  destruct (silence_is_detected_at_most_once 0 es) as (_ & _ & H & _).
  apply H. reflexivity.
Defined.

(** Speech, a long silence, speech again and a second long silence: one
    report. *)
Example second_silence_is_not_reported :
  let es := [mkCallback [1; 2] false 0 100; mkCallback [0] true 200 200;
             mkCallback [0] true 2700 2700; mkCallback [3] false 2800 2800;
             mkCallback [0] true 2900 2900; mkCallback [0] true 9000 9000] in
  detections (outputs (run es (start 0))) = 1%nat.
Proof. reflexivity. Qed.

End RecorderScenarios.

Section ClientFacts.

(** X20.  End to end, a turn in which every stage succeeds leaves the page
    with what it needs to play the answer: fed with the messages the handler
    sends during the turn, in their order, the reducer of the page ends with
    the ready_to_play status, the final transcript as its text, the response
    and the audio with its media type, its error untouched; the condition
    under which the page starts playback then holds, with that audio. *)
Theorem page_after_successful_turn
    (w : Handler.World) (k s : nat) (finalText audio : string)
    (r : Handler.LLMResponse) (c : Client.State) :
  Handler.tasks w !! k = Some (Handler.AwaitStt s) →
  Handler.ws_open w = true →
  JS.blank finalText = false →
  JS.blank (Handler.summary r) = false →
  let w' := Handler.run [Handler.SttSettles k (Handler.Resolved finalText);
                         Handler.LlmReplies k (Handler.Resolved (Some r));
                         Handler.TtsReplies k (Handler.Resolved audio)] w in
  ∃ later,
    Handler.sent w' = Handler.sent w ++ later
    ∧ let c' := Client.receive later c in
      Client.status c' = Handler.ready_to_play
      ∧ Client.transcript c' = finalText
      ∧ Client.llmResponse c' = Some r
      ∧ Client.audioData c' = Some (audio, "audio/mpeg")
      ∧ Client.error c' = Client.error c
      ∧ Client.autoplay c' = Some (audio, "audio/mpeg").
Proof.
  intros Hk Ho Hb Hs.
  pose proof (lookup_lt_Some _ _ _ Hk) as Hlt.
  destruct w as [ss o sn tm str sc sg tk rg ck]. simpl in *. subst o.
  exists [Handler.final_transcript finalText; Handler.status Handler.processing_llm;
          Handler.llm_response r; Handler.status Handler.processing_tts;
          Handler.tts_audio audio "audio/mpeg"; Handler.status Handler.ready_to_play].
  split; [|done].
  rewrite Hk. unfold Handler.resume_stt. rewrite (trim_truthy _ Hb). simpl.
  rewrite list_lookup_insert_eq by done.
  unfold Handler.generateLLMResponse. rewrite (trim_truthy _ Hb). simpl.
  rewrite list_lookup_insert_eq by (by rewrite length_insert).
  unfold Handler.generateTTS, Handler.formatForTTS. simpl.
  rewrite (trim_truthy _ Hs). simpl. by rewrite <- !app_assoc.
Qed.

Lemma page_after_successful_turn_witness :
  let w := Handler.run [Handler.Message (Handler.audio_chunk "AAAA");
                        Handler.Message Handler.stop_recording] (Handler.connect 0) in
  let w' := Handler.run [Handler.SttSettles 0 (Handler.Resolved "hello");
                         Handler.LlmReplies 0 (Handler.Resolved (Some Handler.sample_response));
                         Handler.TtsReplies 0 (Handler.Resolved "SUQz")] w in
  ∃ later, Handler.sent w' = Handler.sent w ++ later
           ∧ Client.autoplay (Client.receive later
                                (Client.mkState Handler.processing_stt " hel" None None None))
             = Some ("SUQz", "audio/mpeg").
Proof.
  intros w w'.
  destruct (page_after_successful_turn w 0 0 "hello" "SUQz" Handler.sample_response
              (Client.mkState Handler.processing_stt " hel" None None None))
    as (later & H1 & _ & _ & _ & _ & _ & H2);
    [reflexivity|reflexivity|reflexivity|reflexivity|].
  exists later. split; [exact H1|exact H2].
Defined.

(** X21.  End to end, the live text on the page.  When the stream reports a
    segment with text, a session that is not cancelled passes the text of the
    callback on as one partial_transcript message and re-arms the silence
    timer, and the page replaces its text with it: after a final segment the
    page shows the whole accumulated transcript, after a partial segment the
    accumulated transcript, a space and the segment.  A cancelled session
    passes nothing on. *)
Theorem page_shows_accumulated_transcript
    (t0 : Z) (evs : list Deepgram.Event) (t : string)
    (w : Handler.World) (c : Client.State) :
  JS.truthy t = true →
  Handler.ws_open w = true →
  let dg := Deepgram.run evs (Deepgram.create t0) in
  let shown (e : Deepgram.Event) :=
    default ("", false) (last (Deepgram.partials (Deepgram.step e dg))) in
  let pass (e : Deepgram.Event) :=
    Handler.step (Handler.OnPartial (fst (shown e)) (snd (shown e))) w in
  (Handler.isCancelled (Handler.session w) = false →
     (∃ later, Handler.sent (pass (Deepgram.final t)) = Handler.sent w ++ later
               ∧ Client.transcript (Client.receive later c)
                 = JS.join_space (Deepgram.final_segments evs ++ [t]))
     ∧ (∃ later, Handler.sent (pass (Deepgram.partial t)) = Handler.sent w ++ later
                 ∧ Client.transcript (Client.receive later c)
                   = JS.join_space (Deepgram.final_segments evs) +:+ " " +:+ t)
     ∧ Handler.vadTimeout (Handler.session (pass (Deepgram.final t)))
       = Some (length (Handler.timers w))
     ∧ Handler.vadTimeout (Handler.session (pass (Deepgram.partial t)))
       = Some (length (Handler.timers w)))
  ∧ (Handler.isCancelled (Handler.session w) = true →
     pass (Deepgram.final t) = w ∧ pass (Deepgram.partial t) = w).
Proof.
  intros Ht Ho dg shown pass.
  assert (Deepgram.accumulates dg (Deepgram.final_segments evs)) as Hacc.
  { apply (accumulates_run evs (Deepgram.create t0) []). by split. }
  assert (shown (Deepgram.final t)
          = (JS.join_space (Deepgram.final_segments evs ++ [t]), true)) as Hf.
  { destruct (accumulates_step (Deepgram.final t) dg _ Hacc) as [H _].
    revert H. unfold shown. simpl. unfold Deepgram.on_transcript. simpl.
    rewrite Ht. simpl. rewrite last_snoc. simpl. by intros ->. }
  assert (shown (Deepgram.partial t)
          = (JS.join_space (Deepgram.final_segments evs) +:+ " " +:+ t, false)) as Hp.
  { destruct Hacc as [H _]. unfold shown. simpl.
    unfold Deepgram.on_transcript. simpl. rewrite Ht. simpl.
    rewrite last_snoc. simpl. by rewrite H. }
  split.
  - intros Hc. unfold pass. rewrite Hf, Hp.
    destruct w as [[stt st la cc hv hm] o sn tm str sc sg tk rg ck].
    simpl in *. subst o cc. unfold Handler.onPartial. simpl. split_and!.
    + eexists. split; [by destruct hv|done].
    + eexists. split; [by destruct hv|done].
    + destruct hv; simpl; by rewrite ?length_clear_at.
    + destruct hv; simpl; by rewrite ?length_clear_at.
  - intros Hc. unfold pass. simpl. unfold Handler.onPartial. by rewrite Hc.
Qed.

Lemma page_shows_accumulated_transcript_witness :
  let dg := Deepgram.run [Deepgram.final "hello"] (Deepgram.create 0) in
  let w := Handler.run [Handler.Message (Handler.audio_chunk "AAAA")] (Handler.connect 0) in
  let text := fst (default ("", false)
                     (last (Deepgram.partials (Deepgram.step (Deepgram.final "world") dg)))) in
  ∃ later, Handler.sent (Handler.step (Handler.OnPartial text true) w)
           = Handler.sent w ++ later
           ∧ Client.transcript
               (Client.receive later (Client.mkState Handler.listening "" None None None))
             = "hello world".
Proof.
  intros dg w text.
  destruct (page_shows_accumulated_transcript 0 [Deepgram.final "hello"] "world" w
              (Client.mkState Handler.listening "" None None None) eq_refl eq_refl)
    as (H & _).
  destruct (H eq_refl) as ((later & H1 & H2) & _).
  exists later. split; [exact H1|exact H2].
Defined.

End ClientFacts.
